(** * KernelWhale: the terminal-session core of [main.js]

    A shallow embedding of the IPC handlers of the Electron main process
    ([execute-code], [show-execution-modal], [kill-execution],
    [get-terminal-buffer], [terminal-input], ...) and of the callbacks
    they register on child processes, windows and timers.

    JavaScript strings are modelled as [string] (sequences of bytes, a
    non-ASCII character being its UTF-8 bytes); the characters the code
    inspects (quote, carriage return) are ASCII, and no UTF-8 multi-byte
    sequence contains an ASCII byte.  Numbers used as identifiers are
    [nat]; exit codes are [Z]. *)

From stdpp Require Import gmap strings list fin_maps pretty.
From Stdlib Require Import ZArith Ascii String.

Open Scope string_scope.

#[local] Arguments String.append !s1 s2 : simpl nomatch.

(** ** Strings *)

Module Str.

Definition CR : ascii := "013"%char.
Definition LF : ascii := "010"%char.
Definition ESC : ascii := "027"%char.
Definition ETX : ascii := "003"%char.
Definition QUOTE : ascii := "'"%char.
Definition BACKSLASH : ascii := "\"%char.

  (** [s.replace(/c/g, by)] for a one-character pattern [c] and a
      replacement text without [$]: every occurrence is replaced, left to
      right. *)
Fixpoint replace_all (c : ascii) (by_ : string) (s : string) : string :=
    match s with
    | EmptyString => EmptyString
    | String a r =>
        if Ascii.eqb a c then by_ ++ replace_all c by_ r
        else String a (replace_all c by_ r)
    end.

Definition lower_char (a : ascii) : ascii :=
    let n := nat_of_ascii a in
    if (65 <=? n)%nat && (n <=? 90)%nat then ascii_of_nat (n + 32) else a.

  (** [s.toLowerCase()].  Only A-Z are folded.  The one non-ASCII letter
      whose lower case is ASCII is the Kelvin sign (to k), and no registry
      key contains a k, so the registry lookup below is not affected. *)
Fixpoint toLowerCase (s : string) : string :=
    match s with
    | EmptyString => EmptyString
    | String a r => String (lower_char a) (toLowerCase r)
    end.

  (** [xs.join(' ')]. *)
Fixpoint join (sep : string) (xs : list string) : string :=
    match xs with
    | [] => ""
    | [x] => x
    | x :: r => x ++ sep ++ join sep r
    end.

End Str.

(** ** Language registry *)

Inductive Platform := Linux | Win32 | OtherPlatform.

#[global] Instance Platform_eq_dec : EqDecision Platform.
Proof. solve_decision. Defined.

(** A language entry after the object spread [{ ...langConfig }]: both
    fields are [undefined] when the spread source has no own enumerable
    properties. *)
Record LangConfig := mkLangConfig {
  cmd : option string;
  args : option (list string)
}.

Definition entry (c : string) (a : string) : LangConfig :=
  mkLangConfig (Some c) (Some [a]).

Definition LANGUAGE_COMMANDS : list (string * LangConfig) :=
  [ ("bash", entry "bash" "-c");
    ("sh", entry "sh" "-c");
    ("shell", entry "bash" "-c");
    ("zsh", entry "zsh" "-c");
    ("python", entry "python3" "-c");
    ("python3", entry "python3" "-c");
    ("py", entry "python3" "-c");
    ("javascript", entry "node" "-e");
    ("js", entry "node" "-e");
    ("node", entry "node" "-e");
    ("powershell", entry "powershell" "-Command");
    ("ps1", entry "powershell" "-Command");
    ("cmd", entry "cmd" "/c");
    ("batch", entry "cmd" "/c") ].

Fixpoint own_lookup (tbl : list (string * LangConfig)) (k : string)
  : option LangConfig :=
  match tbl with
  | [] => None
  | (k', v) :: r => if String.eqb k k' then Some v else own_lookup r k
  end.

(** [LANGUAGE_COMMANDS] is an object literal, so [LANGUAGE_COMMANDS[lang]]
    also finds the properties inherited from [Object.prototype].  Their
    values are truthy (functions, or the prototype itself) and have no own
    enumerable property. *)
Definition object_prototype_keys : list string :=
  [ "constructor"; "__defineGetter__"; "__defineSetter__"; "hasOwnProperty";
    "__lookupGetter__"; "__lookupSetter__"; "isPrototypeOf";
    "propertyIsEnumerable"; "toString"; "valueOf"; "__proto__";
    "toLocaleString" ].

Definition inherited (k : string) : bool :=
  existsb (String.eqb k) object_prototype_keys.

(** [{ ...LANGUAGE_COMMANDS[lang] }], or [None] when the looked-up value
    is [undefined] (the [!langConfig] branch). *)
Definition lookup_language (lang : string) : option LangConfig :=
  match own_lookup LANGUAGE_COMMANDS lang with
  | Some c => Some c
  | None => if inherited lang then Some (mkLangConfig None None) else None
  end.

Definition is_python (lang : string) : bool :=
  String.eqb lang "python" || String.eqb lang "python3" || String.eqb lang "py".

Definition is_powershell (lang : string) : bool :=
  String.eqb lang "powershell" || String.eqb lang "ps1".

(** The per-platform override of [langConfig.cmd]. *)
Definition platform_override (pf : Platform) (lang : string) (c : LangConfig)
  : LangConfig :=
  match pf with
  | Win32 => if is_python lang then mkLangConfig (Some "python") (args c) else c
  | _ => if is_powershell lang then mkLangConfig (Some "pwsh") (args c) else c
  end.

(** A template-string interpolation [${x}] of a possibly undefined text. *)
Definition interpolate (x : option string) : string :=
  match x with Some s => s | None => "undefined" end.

Definition escapeCode (code : string) : string :=
  Str.replace_all Str.QUOTE "'\''" code.

(** The command line handed to [script -qfec ... /dev/null] on Linux. *)
Definition wrapped_command (c : option string) (a : list string) (code : string)
  : string :=
  interpolate c ++ " " ++ Str.join " " a ++ " '" ++ escapeCode code ++ "'".

(** [spawnCmd] and [spawnArgs] as computed inside the [try] block, given
    the (defined) [langConfig.args].  [spawnCmd] is [undefined] only off
    Linux with an undefined [langConfig.cmd]. *)
Definition spawn_invocation (pf : Platform) (c : option string)
    (a : list string) (code : string) : option string * list string :=
  match pf with
  | Linux => (Some "script", ["-qfec"; wrapped_command c a code; "/dev/null"])
  | _ => (c, (a ++ [code])%list)
  end.

(** ** Word splitting of the shell that [script -c] runs

    The quoting rules of the POSIX shell as far as the wrapped command
    uses them: blanks separate words, a backslash outside quotes makes the
    next character literal (a backslash-newline pair disappears), and
    between single quotes every character is literal.  Any other unquoted
    metacharacter is outside this fragment and yields [None]. *)
Module Sh.

Inductive Mode := Plain | Quoted | Escaped.

Definition is_blank (a : ascii) : bool :=
    Ascii.eqb a " "%char || Ascii.eqb a "009"%char || Ascii.eqb a Str.LF.

Definition metachars : string := String "034"%char "|&;<>()$`*?[#~=%!{}".

Fixpoint mem_char (a : ascii) (s : string) : bool :=
    match s with
    | EmptyString => false
    | String b r => Ascii.eqb a b || mem_char a r
    end.

Definition is_meta (a : ascii) : bool := mem_char a metachars.

Definition push (cur : option string) (a : ascii) : option string :=
    match cur with
    | Some w => Some (w ++ String a "")
    | None => Some (String a "")
    end.

Definition start (cur : option string) : option string :=
    match cur with Some w => Some w | None => Some "" end.

Fixpoint split (m : Mode) (cur : option string) (s : string)
    : option (list string) :=
    match s with
    | EmptyString =>
        match m with
        | Plain => Some (match cur with Some w => [w] | None => [] end)
        | _ => None
        end
    | String a r =>
        match m with
        | Quoted =>
            if Ascii.eqb a Str.QUOTE then split Plain cur r
            else split Quoted (push cur a) r
        | Escaped =>
            if Ascii.eqb a Str.LF then split Plain cur r
            else split Plain (push cur a) r
        | Plain =>
            if Ascii.eqb a Str.QUOTE then split Quoted (start cur) r
            else if Ascii.eqb a Str.BACKSLASH then split Escaped cur r
            else if is_blank a then
              match cur with
              | Some w => cons w <$> split Plain None r
              | None => split Plain None r
              end
            else if is_meta a then None
            else split Plain (push cur a) r
        end
    end.

Definition words (s : string) : option (list string) := split Plain None s.

  (** Characters that stand for themselves outside quotes. *)
Definition plain_char (a : ascii) : bool :=
    negb (Ascii.eqb a Str.QUOTE || Ascii.eqb a Str.BACKSLASH
          || is_blank a || is_meta a).

Fixpoint plain_word (s : string) : bool :=
    match s with
    | EmptyString => true
    | String a r => plain_char a && plain_word r
    end.

End Sh.

(** ** Data model *)

Inductive Signal := SIGINT | SIGTERM | SIGKILL.

(** The completion record [{ stdout, stderr, exitCode, wasInterrupted }].
    [exitCode] is [null] when the child was ended by a signal. *)
Record Result := mkResult {
  res_stdout : string;
  res_stderr : string;
  res_exitCode : option Z;
  res_wasInterrupted : bool
}.

(** The values the [execute-code] promise is resolved with. *)
Inductive ExecResult :=
| Error (error : string)
| ErrorWithOutput (error out err : string)
| Completed (r : Result).

Inductive StreamType := Stdout | Stderr.

(** Messages sent to a terminal window with [webContents.send]. *)
Inductive WinMsg :=
| TerminalOutput (type : StreamType) (data : string)
| TerminalCompleteMsg (result : ExecResult).

(** The terminal [BrowserWindow] of a session: its title, the code its
    page was built from, and everything sent to it so far. *)
Record Window := mkWindow {
  title : string;
  page_code : string;
  closing : bool;
  destroyed : bool;
  sent : list WinMsg
}.

(** The object stored in [terminals]; [activeProcess] refers to a child
    process handle by identity. *)
Record TermData := mkTermData {
  window : Window;
  activeProcess : option nat;
  buffer : string;
  isExecutionComplete : bool;
  lastExecutionResult : option Result;
  wasInterrupted : bool
}.

Record Stdin := mkStdin {
  writable : bool;
  written : list string
}.

(** A [ChildProcess] handle together with what the callbacks registered
    on it close over: the session object [termData], the accumulators
    [stdout] and [stderr], and the promise ([settled] is its value once
    resolved; later [resolve] calls have no effect).  [handle] tells
    whether the operating-system process is still attached: [kill] only
    delivers a signal, and sets [killed], while it is. *)
Record Proc := mkProc {
  termData : nat;
  spawnCmd : string;
  spawnArgs : list string;
  useShell : bool;
  stdout : string;
  stderr : string;
  stdin : option Stdin;
  killed : bool;
  kill_calls : list Signal;
  handle : bool;
  settled : option ExecResult;
  closed : bool
}.

(** A pending [setTimeout] callback of [kill-execution]: the time it is
    due and the process handle [p] its closure captured. *)
Record Timer := mkTimer {
  due : nat;
  target : nat
}.

(** The main process.  [heap] holds the session objects by identity:
    deleting a key of [terminals] does not end the life of the object,
    which the callbacks of its processes still reach. *)
Record State := mkState {
  platform : Platform;
  terminals : gmap nat nat;
  heap : gmap nat TermData;
  nextTerminalId : nat;
  procs : gmap nat Proc;
  nextProc : nat;
  timers : gmap nat Timer;
  nextTimer : nat;
  clock : nat
}.

Definition init (pf : Platform) : State :=
  mkState pf ∅ ∅ 1 ∅ 0 ∅ 0 0.

(** *** Field updates *)

Definition set_heap (h : gmap nat TermData) (st : State) : State :=
  mkState (platform st) (terminals st) h (nextTerminalId st) (procs st)
          (nextProc st) (timers st) (nextTimer st) (clock st).

Definition set_procs (ps : gmap nat Proc) (st : State) : State :=
  mkState (platform st) (terminals st) (heap st) (nextTerminalId st) ps
          (nextProc st) (timers st) (nextTimer st) (clock st).

Definition set_terminals (ts : gmap nat nat) (st : State) : State :=
  mkState (platform st) ts (heap st) (nextTerminalId st) (procs st)
          (nextProc st) (timers st) (nextTimer st) (clock st).

Definition set_timers (tm : gmap nat Timer) (st : State) : State :=
  mkState (platform st) (terminals st) (heap st) (nextTerminalId st) (procs st)
          (nextProc st) tm (nextTimer st) (clock st).

Definition store (l : nat) (td : TermData) (st : State) : State :=
  set_heap (<[l := td]> (heap st)) st.

Definition store_proc (p : nat) (pr : Proc) (st : State) : State :=
  set_procs (<[p := pr]> (procs st)) st.

Definition with_window (w : Window) (td : TermData) : TermData :=
  mkTermData w (activeProcess td) (buffer td) (isExecutionComplete td)
             (lastExecutionResult td) (wasInterrupted td).

Definition with_activeProcess (a : option nat) (td : TermData) : TermData :=
  mkTermData (window td) a (buffer td) (isExecutionComplete td)
             (lastExecutionResult td) (wasInterrupted td).

Definition with_buffer (b : string) (td : TermData) : TermData :=
  mkTermData (window td) (activeProcess td) b (isExecutionComplete td)
             (lastExecutionResult td) (wasInterrupted td).

Definition with_wasInterrupted (b : bool) (td : TermData) : TermData :=
  mkTermData (window td) (activeProcess td) (buffer td) (isExecutionComplete td)
             (lastExecutionResult td) b.

Definition send (m : WinMsg) (w : Window) : Window :=
  mkWindow (title w) (page_code w) (closing w) (destroyed w) (sent w ++ [m]).

Definition with_stdout (s : string) (pr : Proc) : Proc :=
  mkProc (termData pr) (spawnCmd pr) (spawnArgs pr) (useShell pr) s (stderr pr)
         (stdin pr) (killed pr) (kill_calls pr) (handle pr) (settled pr) (closed pr).

Definition with_stderr (s : string) (pr : Proc) : Proc :=
  mkProc (termData pr) (spawnCmd pr) (spawnArgs pr) (useShell pr) (stdout pr) s
         (stdin pr) (killed pr) (kill_calls pr) (handle pr) (settled pr) (closed pr).

Definition with_stdin (i : option Stdin) (pr : Proc) : Proc :=
  mkProc (termData pr) (spawnCmd pr) (spawnArgs pr) (useShell pr) (stdout pr)
         (stderr pr) i (killed pr) (kill_calls pr) (handle pr) (settled pr)
         (closed pr).

Definition with_handle (b : bool) (pr : Proc) : Proc :=
  mkProc (termData pr) (spawnCmd pr) (spawnArgs pr) (useShell pr) (stdout pr)
         (stderr pr) (stdin pr) (killed pr) (kill_calls pr) b (settled pr)
         (closed pr).

Definition with_closed (b : bool) (pr : Proc) : Proc :=
  mkProc (termData pr) (spawnCmd pr) (spawnArgs pr) (useShell pr) (stdout pr)
         (stderr pr) (stdin pr) (killed pr) (kill_calls pr) (handle pr)
         (settled pr) b.

(** *** Library behaviour the handlers rely on *)

(** [resolve(v)]: the first call settles the promise. *)
Definition resolve (v : ExecResult) (pr : Proc) : Proc :=
  mkProc (termData pr) (spawnCmd pr) (spawnArgs pr) (useShell pr) (stdout pr)
         (stderr pr) (stdin pr) (killed pr) (kill_calls pr) (handle pr)
         (match settled pr with Some v0 => Some v0 | None => Some v end)
         (closed pr).

(** [p.kill(sig)]: the call is recorded; the signal is delivered, and
    [p.killed] becomes true, only while the handle is attached. *)
Definition kill (sig : Signal) (pr : Proc) : Proc :=
  mkProc (termData pr) (spawnCmd pr) (spawnArgs pr) (useShell pr) (stdout pr)
         (stderr pr) (stdin pr) (killed pr || handle pr)
         (kill_calls pr ++ [sig]) (handle pr) (settled pr) (closed pr).

(** [p.stdin.write(text)]. *)
Definition write (text : string) (pr : Proc) : Proc :=
  match stdin pr with
  | Some i => with_stdin (Some (mkStdin (writable i) (written i ++ [text]))) pr
  | None => pr
  end.

(** [child_process.spawn] with the default [stdio]: the three streams are
    pipes, so [stdin] is a stream object. *)
Definition spawn (l : nat) (c : string) (a : list string) (sh : bool) : Proc :=
  mkProc l c a sh "" "" (Some (mkStdin true [])) false [] true None false.

(** ** The handlers *)

(** [terminals.get(sessionId)], then the object it refers to.  A missing
    [sessionId] argument is [None]; the keys of [terminals] are numbers
    only, so it finds nothing. *)
Definition get (sessionId : option nat) (st : State) : option (nat * TermData) :=
  sid ← sessionId; l ← terminals st !! sid; td ← heap st !! l; Some (l, td).

(** What [spawn] does when called: it returns a handle, or throws. *)
Inductive SpawnOutcome := SpawnOk | SpawnThrows (message : string).

(** The reply of [get-terminal-buffer]. *)
Record BufferInfo := mkBufferInfo {
  bi_buffer : string;
  isComplete : bool;
  result : option Result
}.

Inductive Reply :=
| NoReply
| ReplySession (sessionId : nat)
| ReplyExec (r : ExecResult)
| ReplyPending (p : nat)
| ReplyBuffer (b : option BufferInfo).

(** Messages of the two [TypeError]s the [try] block can catch before
    [spawn] runs (the engine's wording; nothing depends on the text). *)
Definition spread_error : string := "langConfig.args is not iterable".
Definition invalid_file_error : string :=
  "The " ++ String "034"%char ("file" ++ String "034"%char
  " argument must be of type string. Received undefined").

(** Lines 47-49: the three assignments every call makes first. *)
Definition reset_execution (td : TermData) : TermData :=
  mkTermData (window td) (activeProcess td) (buffer td) false None false.

Definition register_proc (pr : Proc) (st : State) : State :=
  mkState (platform st) (terminals st) (heap st) (nextTerminalId st)
          (<[nextProc st := pr]> (procs st)) (S (nextProc st)) (timers st)
          (nextTimer st) (clock st).

(** [ipcMain.handle('execute-code', ...)].  The reply is the value of the
    promise when it is resolved before the handler returns, and
    [ReplyPending p] when it is left to the callbacks of process [p]. *)
Definition execute_code (code language : string) (sessionId : option nat)
    (o : SpawnOutcome) (st : State) : State * Reply :=
  match get sessionId st with
  | None => (st, ReplyExec (Error "Session not found"))
  | Some (l, td) =>
      let st1 := store l (reset_execution td) st in
      let lang := Str.toLowerCase language in
      match lookup_language lang with
      | None => (st1, ReplyExec (Error ("Unsupported language: " ++ language)))
      | Some c0 =>
          let langConfig := platform_override (platform st) lang c0 in
          let isWindows := bool_decide (platform st = Win32) in
          match args langConfig with
          | None => (st1, ReplyExec (Error spread_error))
          | Some a =>
              match spawn_invocation (platform st) (cmd langConfig) a code with
              | (None, _) => (st1, ReplyExec (Error invalid_file_error))
              | (Some c, sa) =>
                  match o with
                  | SpawnThrows msg => (st1, ReplyExec (Error msg))
                  | SpawnOk =>
                      let p := nextProc st in
                      let td1 := with_activeProcess (Some p) (reset_execution td) in
                      (register_proc (spawn l c sa isWindows) (store l td1 st),
                       ReplyPending p)
                  end
              end
          end
      end
  end.

(** The preload script: [__executeCode(code, language)] invokes
    [execute-code] with these two arguments only, so the handler sees
    [sessionId] undefined. *)
Definition __executeCode (code language : string) (o : SpawnOutcome)
    (st : State) : State * Reply :=
  execute_code code language None o st.

Definition accumulate (ty : StreamType) (text : string) (pr : Proc) : Proc :=
  match ty with
  | Stdout => with_stdout (stdout pr ++ text) pr
  | Stderr => with_stderr (stderr pr ++ text) pr
  end.

Definition forward (m : WinMsg) (td : TermData) : TermData :=
  if destroyed (window td) then td else with_window (send m (window td)) td.

(** [activeProcess.stdout.on('data', ...)] and its [stderr] twin, for the
    process [p] they were registered on. *)
Definition on_data (ty : StreamType) (p : nat) (text : string) (st : State)
  : State :=
  match procs st !! p with
  | None => st
  | Some pr =>
      let st1 := store_proc p (accumulate ty text pr) st in
      match heap st !! termData pr with
      | None => st1
      | Some td =>
          store (termData pr)
                (forward (TerminalOutput ty text)
                         (with_buffer (buffer td ++ text) td)) st1
      end
  end.

(** [activeProcess.on('error', ...)]. *)
Definition on_error (p : nat) (message : string) (st : State) : State :=
  match procs st !! p with
  | None => st
  | Some pr =>
      store_proc p (resolve (ErrorWithOutput message (stdout pr) (stderr pr)) pr) st
  end.

(** [activeProcess.on('close', ...)]. *)
Definition on_close (p : nat) (exitCode : option Z) (st : State) : State :=
  match procs st !! p with
  | None => st
  | Some pr =>
      match heap st !! termData pr with
      | None => st
      | Some td =>
          let r := mkResult (stdout pr) (stderr pr) exitCode (wasInterrupted td) in
          store (termData pr)
                (mkTermData (window td) None (buffer td) true (Some r)
                            (wasInterrupted td))
                (store_proc p (resolve (Completed r) pr) st)
      end
  end.

Definition echo (code : string) : string :=
  String Str.ESC "[1;36m└─$ " ++ code ++ String Str.ESC "[0m"
  ++ String Str.CR (String Str.LF "").

(** [ipcMain.handle('show-execution-modal', ...)]: the session, its
    window and its object are created together under the next id. *)
Definition show_execution_modal (language code : string) (st : State)
  : State * Reply :=
  let sessionId := nextTerminalId st in
  let terminalWindow :=
    mkWindow ("Terminal Output - " ++ language) code false false [] in
  let td := mkTermData terminalWindow None (echo code) false None false in
  (mkState (platform st) (<[sessionId := sessionId]> (terminals st))
           (<[sessionId := td]> (heap st)) (S sessionId) (procs st)
           (nextProc st) (timers st) (nextTimer st) (clock st),
   ReplySession sessionId).

Definition signal (sig : Signal) (p : nat) (st : State) : State :=
  match procs st !! p with
  | Some pr => store_proc p (kill sig pr) st
  | None => st
  end.

(** [terminalWindow.on('closed', ...)] of the window made for
    [sessionId]. *)
Definition on_closed (sessionId : nat) (st : State) : State :=
  let st1 :=
    match get (Some sessionId) st with
    | Some (_, td) =>
        match activeProcess td with
        | Some p => signal SIGTERM p st
        | None => st
        end
    | None => st
    end in
  set_terminals (delete sessionId (terminals st1)) st1.

(** [ipcMain.on('close-terminal', ...)]: asks the window to close. *)
Definition close_terminal (sessionId : option nat) (st : State) : State :=
  match get sessionId st with
  | Some (l, td) =>
      let w := window td in
      if destroyed w then st
      else store l (with_window (mkWindow (title w) (page_code w) true
                                          (destroyed w) (sent w)) td) st
  | None => st
  end.

Definition stdin_writable (pr : Proc) : bool :=
  match stdin pr with Some i => writable i | None => false end.

Definition add_timer (tm : Timer) (st : State) : State :=
  mkState (platform st) (terminals st) (heap st) (nextTerminalId st) (procs st)
          (nextProc st) (<[nextTimer st := tm]> (timers st)) (S (nextTimer st))
          (clock st).

Definition GRACE_MS : nat := 3000.

(** [ipcMain.on('kill-execution', ...)]. *)
Definition kill_execution (sessionId : option nat) (st : State) : State :=
  match get sessionId st with
  | Some (l, td) =>
      match activeProcess td with
      | Some p =>
          match procs st !! p with
          | Some pr =>
              let pr1 :=
                if stdin_writable pr then write (String Str.ETX "") pr
                else kill SIGINT pr in
              add_timer (mkTimer (clock st + GRACE_MS) p)
                (store_proc p pr1 (store l (with_wasInterrupted true td) st))
          | None => st
          end
      | None => st
      end
  | None => st
  end.

(** The [setTimeout] callback of [kill-execution], for the pending timer
    [t]: [if (p && !p.killed) p.kill('SIGKILL')]. *)
Definition kill_timer (t : nat) (st : State) : State :=
  match timers st !! t with
  | None => st
  | Some tm =>
      let st1 := set_timers (delete t (timers st)) st in
      match procs st1 !! target tm with
      | Some pr => if killed pr then st1 else signal SIGKILL (target tm) st1
      | None => st1
      end
  end.

(** [ipcMain.on('terminal-complete', ...)]. *)
Definition terminal_complete (sessionId : option nat) (r : ExecResult)
    (st : State) : State :=
  match get sessionId st with
  | Some (l, td) => store l (forward (TerminalCompleteMsg r) td) st
  | None => st
  end.

(** [ipcMain.handle('get-terminal-buffer', ...)]. *)
Definition get_terminal_buffer (sessionId : option nat) (st : State)
  : option BufferInfo :=
  match get sessionId st with
  | Some (_, td) =>
      Some (mkBufferInfo (buffer td) (isExecutionComplete td)
                         (lastExecutionResult td))
  | None => None
  end.

Definition normalize (text : string) : string :=
  Str.replace_all Str.CR (String Str.LF "") text.

(** [ipcMain.on('terminal-input', ...)]. *)
Definition terminal_input (sessionId : option nat) (text : string) (st : State)
  : State :=
  match get sessionId st with
  | Some (_, td) =>
      match activeProcess td with
      | Some p =>
          match procs st !! p with
          | Some pr =>
              match stdin pr with
              | Some _ => store_proc p (write (normalize text) pr) st
              | None => st
              end
          | None => st
          end
      | None => st
      end
  | None => st
  end.

(** ** Events and runs

    The handlers run one at a time on the single JavaScript thread; an
    event is an IPC message from a renderer, a callback of a child
    process, a window or a timer, or the passing of time. *)

Inductive Event :=
| ShowExecutionModal (language code : string)
| ExecuteCode (code language : string) (sessionId : option nat) (o : SpawnOutcome)
| KillExecution (sessionId : option nat)
| CloseTerminal (sessionId : option nat)
| TerminalComplete (sessionId : option nat) (r : ExecResult)
| GetTerminalBuffer (sessionId : option nat)
| TerminalInput (sessionId : option nat) (text : string)
| Data (ty : StreamType) (p : nat) (text : string)
| ProcError (p : nat) (message : string)
| ProcClose (p : nat) (exitCode : option Z)
| ProcExit (p : nat)
| StdinEnd (p : nat)
| WindowClosed (sessionId : nat)
| TimerFire (t : nat)
| Tick (ms : nat).

(** What the runtime has done to its own objects by the time a callback
    runs: the window is destroyed when ['closed'] is emitted; the handle
    of a process is released when it exits and is gone when ['close'] is
    emitted; a pipe stops being writable when it ends. *)
Definition destroy_window (l : nat) (st : State) : State :=
  match heap st !! l with
  | Some td =>
      let w := window td in
      store l (with_window (mkWindow (title w) (page_code w) (closing w) true
                                     (sent w)) td) st
  | None => st
  end.

Definition release_handle (p : nat) (st : State) : State :=
  match procs st !! p with
  | Some pr => store_proc p (with_handle false pr) st
  | None => st
  end.

Definition mark_closed (p : nat) (st : State) : State :=
  match procs st !! p with
  | Some pr => store_proc p (with_closed true (with_handle false pr)) st
  | None => st
  end.

Definition end_stdin (p : nat) (st : State) : State :=
  match procs st !! p with
  | Some pr =>
      match stdin pr with
      | Some i => store_proc p (with_stdin (Some (mkStdin false (written i))) pr) st
      | None => st
      end
  | None => st
  end.

Definition advance (ms : nat) (st : State) : State :=
  mkState (platform st) (terminals st) (heap st) (nextTerminalId st) (procs st)
          (nextProc st) (timers st) (nextTimer st) (clock st + ms).

Definition step (e : Event) (st : State) : State * Reply :=
  match e with
  | ShowExecutionModal language code => show_execution_modal language code st
  | ExecuteCode code language sessionId o => execute_code code language sessionId o st
  | KillExecution sessionId => (kill_execution sessionId st, NoReply)
  | CloseTerminal sessionId => (close_terminal sessionId st, NoReply)
  | TerminalComplete sessionId r => (terminal_complete sessionId r st, NoReply)
  | GetTerminalBuffer sessionId => (st, ReplyBuffer (get_terminal_buffer sessionId st))
  | TerminalInput sessionId text => (terminal_input sessionId text st, NoReply)
  | Data ty p text => (on_data ty p text st, NoReply)
  | ProcError p message => (on_error p message st, NoReply)
  | ProcClose p exitCode => (on_close p exitCode (mark_closed p st), NoReply)
  | ProcExit p => (release_handle p st, NoReply)
  | StdinEnd p => (end_stdin p st, NoReply)
  | WindowClosed sessionId => (on_closed sessionId (destroy_window sessionId st), NoReply)
  | TimerFire t => (kill_timer t st, NoReply)
  | Tick ms => (advance ms st, NoReply)
  end.

Definition next (e : Event) (st : State) : State := (step e st).1.

Definition is_open (p : nat) (st : State) : bool :=
  match procs st !! p with
  | Some pr => negb (closed pr)
  | None => false
  end.

(** When the runtime can deliver an event.  A process emits nothing after
    its ['close']; a window is closed once; a timer runs once, and not
    before it is due.  IPC messages can arrive at any time, with any
    argument. *)
Definition enabled (e : Event) (st : State) : bool :=
  match e with
  | Data _ p _ | ProcError p _ | ProcClose p _ | ProcExit p | StdinEnd p =>
      is_open p st
  | WindowClosed l =>
      match heap st !! l with
      | Some td => negb (destroyed (window td))
      | None => false
      end
  | TimerFire t =>
      match timers st !! t with
      | Some tm => (due tm <=? clock st)%nat
      | None => false
      end
  | _ => true
  end.

Inductive reachable (pf : Platform) : State → Prop :=
| reachable_init : reachable pf (init pf)
| reachable_step st e :
    reachable pf st → enabled e st = true → reachable pf (next e st).

(** A run that checks each event against [enabled]. *)
Fixpoint run (evs : list Event) (st : State) : option State :=
  match evs with
  | [] => Some st
  | e :: r => if enabled e st then run r (next e st) else None
  end.

Definition session (sessionId : nat) (st : State) : option TermData :=
  snd <$> get (Some sessionId) st.

(** The preload script: [__executeCodeAndShowModal] awaits the promise of
    its [execute-code] call and sends the value on [terminal-complete].
    For the run on process [p] that value, the completion event, is what
    the promise was settled with. *)
Definition completion_event (p : nat) (st : State) : option ExecResult :=
  pr ← procs st !! p; settled pr.

(** ** Notions used in the statements *)

(** The text of the output messages among [ms], in the order sent. *)
Fixpoint outputs (ms : list WinMsg) : string :=
  match ms with
  | [] => ""
  | TerminalOutput _ d :: r => d ++ outputs r
  | TerminalCompleteMsg _ :: r => outputs r
  end.

(** What event [e] appends to the buffer of the session object [l]. *)
Definition appended (e : Event) (l : nat) (st : State) : string :=
  match e with
  | Data _ p text =>
      match procs st !! p with
      | Some pr => if decide (termData pr = l) then text else ""
      | None => ""
      end
  | _ => ""
  end.

(** [e] is a call of [execute-code] that finds the session object [l]. *)
Definition executes (e : Event) (l : nat) (st : State) : bool :=
  match e with
  | ExecuteCode _ _ sessionId _ =>
      match get sessionId st with
      | Some (l', _) => bool_decide (l' = l)
      | None => false
      end
  | _ => false
  end.

(** [e] is the ['close'] of a process started on the session object [l]. *)
Definition closes (e : Event) (l : nat) (st : State) : bool :=
  match e with
  | ProcClose p _ =>
      match procs st !! p with
      | Some pr => bool_decide (termData pr = l)
      | None => false
      end
  | _ => false
  end.

Definition plain_config (c : LangConfig) : bool :=
  match cmd c, args c with
  | Some x, Some a =>
      Sh.plain_word x && negb (String.eqb x "")
      && forallb (λ y, Sh.plain_word y && negb (String.eqb y "")) a
  | _, _ => false
  end.

(** The promise of a run was settled by the ['error'] callback. *)
Definition settled_by_error (pr : Proc) : Prop :=
  ∃ m o e, settled pr = Some (ErrorWithOutput m o e).

(** Invariants of the reachable states. *)
Record wf (st : State) : Prop := mkWf {
  wf_heap_fresh : ∀ l, (nextTerminalId st ≤ l)%nat → heap st !! l = None;
  wf_proc_fresh : ∀ p, (nextProc st ≤ p)%nat → procs st !! p = None;
  wf_terminals : ∀ sid l, terminals st !! sid = Some l →
      l = sid ∧ ∃ td, heap st !! l = Some td ∧ destroyed (window td) = false;
  wf_procs : ∀ p pr, procs st !! p = Some pr →
      is_Some (stdin pr) ∧ is_Some (heap st !! termData pr);
  wf_active : ∀ l td p, heap st !! l = Some td → activeProcess td = Some p →
      is_Some (procs st !! p);
  wf_complete : ∀ l td, heap st !! l = Some td →
      (isExecutionComplete td = true ↔ is_Some (lastExecutionResult td))
      ∧ (isExecutionComplete td = true → activeProcess td = None);
  wf_buffer : ∀ l td, heap st !! l = Some td → destroyed (window td) = false →
      buffer td = echo (page_code (window td)) ++ outputs (sent (window td));
  wf_settled : ∀ p pr, procs st !! p = Some pr → closed pr = false →
      settled pr = None ∨ settled_by_error pr;
  wf_result : ∀ l td r, heap st !! l = Some td →
      lastExecutionResult td = Some r →
      ∃ p pr, procs st !! p = Some pr ∧ termData pr = l ∧ closed pr = true
              ∧ (settled pr = Some (Completed r) ∨ settled_by_error pr)
}.

(** A run without the check, for stating what follows a given state. *)
Fixpoint exec (evs : list Event) (st : State) : State :=
  match evs with
  | [] => st
  | e :: r => exec r (next e st)
  end.

(** ** Sample runs

    One session, one run printing a line and exiting with code 0. *)
Definition completed_once : list Event :=
  [ ShowExecutionModal "python" "print(1)";
    ExecuteCode "print(1)" "python" (Some 1) SpawnOk;
    Data Stdout 0 "1";
    ProcClose 0 (Some 0%Z) ].

(** A second run on the same session. *)
Definition second_run : Event := ExecuteCode "print(2)" "python" (Some 1) SpawnOk.

(** A run whose [spawn] fails: the handle is returned and ['error'] is
    emitted on it. *)
Definition failed_spawn : list Event :=
  [ ShowExecutionModal "python" "print(1)";
    ExecuteCode "print(1)" "python" (Some 1) SpawnOk;
    ProcError 0 "spawn script ENOENT" ].

(** ... followed by the ['close'] the runtime emits after such an
    ['error'], with the negated error number as exit code. *)
Definition failed_then_closed : list Event :=
  failed_spawn ++ [ProcClose 0 (Some (-2)%Z)].

(** Two runs started on one session, the first closing first. *)
Definition overlapping_runs : list Event :=
  [ ShowExecutionModal "bash" "sleep 1";
    ExecuteCode "sleep 1" "bash" (Some 1) SpawnOk;
    ExecuteCode "echo x" "bash" (Some 1) SpawnOk;
    ProcClose 0 (Some 0%Z) ].

(** An interrupt when the input stream has ended, and the timer. *)
Definition interrupted_by_signal : list Event :=
  [ ShowExecutionModal "bash" "sleep 5";
    ExecuteCode "sleep 5" "bash" (Some 1) SpawnOk;
    StdinEnd 0;
    KillExecution (Some 1);
    Tick 3000;
    TimerFire 0 ].

(** A run waiting for input, after one Enter key. *)
Definition awaiting_input : list Event :=
  [ ShowExecutionModal "bash" "read x";
    ExecuteCode "read x" "bash" (Some 1) SpawnOk;
    TerminalInput (Some 1) (String Str.CR "") ].

(** ** [escapeHtml]

    [text.replace(re, m => map[m])], where [re] matches globally any one
    of the five characters ampersand, less-than, greater-than, double
    quote and single quote: each of them is replaced by its entity, every
    other character is kept. *)

Definition DQUOTE : ascii := "034"%char.

Definition html_entity (a : ascii) : option string :=
  if Ascii.eqb a "&" then Some "&amp;"
  else if Ascii.eqb a "<" then Some "&lt;"
  else if Ascii.eqb a ">" then Some "&gt;"
  else if Ascii.eqb a DQUOTE then Some "&quot;"
  else if Ascii.eqb a Str.QUOTE then Some "&#039;"
  else None.

Fixpoint escapeHtml (text : string) : string :=
  match text with
  | EmptyString => EmptyString
  | String a r =>
      match html_entity a with
      | Some e => e ++ escapeHtml r
      | None => String a (escapeHtml r)
      end
  end.

(** ** The window-open handler of the main window *)

(** [s.includes(sub)]. *)
Fixpoint includes (sub s : string) : bool :=
  String.prefix sub s
  || match s with
     | EmptyString => false
     | String _ r => includes sub r
     end.

Inductive OpenAction := Allow | Deny.

Definition allowed_url (url : string) : bool :=
  includes "accounts.google.com" url
  || includes "deepseek.com" url
  || includes "google.com/o/oauth" url.

(** [setWindowOpenHandler(({ url }) => ...)]: the action returned, and the
    URL handed to [shell.openExternal], if any. *)
Definition window_open_handler (url : string) : OpenAction * option string :=
  if allowed_url url then (Allow, None) else (Deny, Some url).

(** ** The injected page script: which code blocks get a Run button *)

Definition EXECUTABLE_LANGUAGES : list string :=
  [ "bash"; "sh"; "shell"; "zsh"; "python"; "python3"; "py"; "javascript";
    "js"; "node"; "powershell"; "ps1"; "cmd"; "batch" ].

(** [EXECUTABLE_LANGUAGES.includes(language.toLowerCase())], the test of
    [processCodeBlocks]. *)
Definition offers_run (language : string) : bool :=
  existsb (String.eqb (Str.toLowerCase language)) EXECUTABLE_LANGUAGES.

(** ** The page of a terminal window

    The script that [show-execution-modal] loads into the window.  [term]
    is the sequence of [term.write] calls; the three buttons are recorded
    by whether they are displayed.  [blank s] stands for [!s.trim()], the
    test for a text of white space only. *)

Record Page := mkPage {
  term : list string;
  fullOutput : string;
  data_completed : bool;
  cursorBlink : bool;
  killBtn : bool;
  copyBtn : bool;
  sendBtn : bool
}.

Definition new_page : Page := mkPage [] "" false true true false false.

(** The value of [result.exitCode]: a number, [null], or [undefined] for
    a result that has no such field. *)
Inductive JsExit := ExitNumber (n : Z) | ExitNull | ExitUndefined.

Definition exitCode_of (v : ExecResult) : JsExit :=
  match v with
  | Completed r =>
      match res_exitCode r with Some n => ExitNumber n | None => ExitNull end
  | _ => ExitUndefined
  end.

(** The truth value of [result.wasInterrupted]. *)
Definition interrupted_of (v : ExecResult) : bool :=
  match v with
  | Completed r => res_wasInterrupted r
  | _ => false
  end.

(** A value of [result.exitCode] appended to a string. *)
Definition show_exit (x : JsExit) : string :=
  match x with
  | ExitNumber n => pretty n
  | ExitNull => "null"
  | ExitUndefined => "undefined"
  end.

Definition isSuccess (v : ExecResult) : bool :=
  match exitCode_of v with
  | ExitNumber 0 => negb (interrupted_of v)
  | _ => false
  end.

Definition exitMsg (v : ExecResult) : string :=
  String Str.CR (String Str.LF "")
  ++ String Str.ESC (if isSuccess v then "[1;32m" else "[1;31m")
  ++ "Exit code: "
  ++ (if interrupted_of v then "null" else show_exit (exitCode_of v))
  ++ String Str.ESC "[0m".

Definition hide_cursor : string := String Str.ESC "[?25l".

(** [handleCompletion(result)].  With [result] null the attribute is set
    and the read of [result.exitCode] throws, which ends the call. *)
Definition handleCompletion (r : option ExecResult) (pg : Page) : Page :=
  if data_completed pg then pg
  else
    match r with
    | None =>
        mkPage (term pg) (fullOutput pg) true (cursorBlink pg) (killBtn pg)
               (copyBtn pg) (sendBtn pg)
    | Some v =>
        mkPage (term pg ++ [exitMsg v; hide_cursor]) (fullOutput pg) true
               false false true (sendBtn pg)
    end.

Section Page.

Variable blank : string → bool.

(** The [then] callback of the initial [get-terminal-buffer] call. *)
Definition on_buffer (data : option BufferInfo) (pg : Page) : Page :=
  match data with
  | None => pg
  | Some d =>
      let pg1 :=
        if String.eqb (bi_buffer d) "" then pg
        else mkPage (term pg ++ [bi_buffer d]) (bi_buffer d)
                    (data_completed pg) (cursorBlink pg) (killBtn pg)
                    (copyBtn pg) (sendBtn pg || negb (blank (bi_buffer d))) in
      if isComplete d then handleCompletion (Completed <$> result d) pg1
      else pg1
  end.

(** [ipcRenderer.on('terminal-output', ...)]. *)
Definition on_output (data : string) (pg : Page) : Page :=
  mkPage (term pg ++ [data]) (fullOutput pg ++ data) (data_completed pg)
         (cursorBlink pg) (killBtn pg) (copyBtn pg)
         (sendBtn pg || negb (blank (fullOutput pg ++ data))).

(** What reaches the page: the reply to its one [get-terminal-buffer]
    call, and the messages the main process sends to the window. *)
Inductive PageMsg :=
| BufferReply (data : option BufferInfo)
| Pushed (m : WinMsg).

Definition deliver (m : PageMsg) (pg : Page) : Page :=
  match m with
  | BufferReply data => on_buffer data pg
  | Pushed (TerminalOutput _ data) => on_output data pg
  | Pushed (TerminalCompleteMsg r) => handleCompletion (Some r) pg
  end.

Fixpoint deliver_all (ms : list PageMsg) (pg : Page) : Page :=
  match ms with
  | [] => pg
  | m :: r => deliver_all r (deliver m pg)
  end.

End Page.

(** The [term.write] calls that show output: the buffer of a reply, when
    not empty, and the text of each output message. *)
Definition shown (m : PageMsg) : list string :=
  match m with
  | BufferReply (Some d) =>
      if String.eqb (bi_buffer d) "" then [] else [bi_buffer d]
  | BufferReply None => []
  | Pushed (TerminalOutput _ data) => [data]
  | Pushed (TerminalCompleteMsg _) => []
  end.

(** The argument of the [handleCompletion] call a message leads to. *)
Definition completion_of (m : PageMsg) : option (option ExecResult) :=
  match m with
  | BufferReply (Some d) =>
      if isComplete d then Some (Completed <$> result d) else None
  | BufferReply None => None
  | Pushed (TerminalOutput _ _) => None
  | Pushed (TerminalCompleteMsg r) => Some (Some r)
  end.

Definition is_reply (m : PageMsg) : bool :=
  match m with BufferReply _ => true | Pushed _ => false end.

#[global] Instance StreamType_eq_dec : EqDecision StreamType.
Proof. solve_decision. Defined.

(** The data chunks of stream [ty] that process [p] emits in [evs]. *)
Fixpoint chunks (ty : StreamType) (p : nat) (evs : list Event) : string :=
  match evs with
  | [] => ""
  | Data ty' p' text :: r =>
      if bool_decide (ty' = ty ∧ p' = p) then text ++ chunks ty p r
      else chunks ty p r
  | _ :: r => chunks ty p r
  end.

(** The message event [e] sends to the window of the session object [l]. *)
Definition forwarded (e : Event) (l : nat) (st : State) : list WinMsg :=
  match heap st !! l with
  | Some td =>
      if destroyed (window td) then []
      else
        match e with
        | Data ty p text =>
            match procs st !! p with
            | Some pr => if decide (termData pr = l) then [TerminalOutput ty text] else []
            | None => []
            end
        | TerminalComplete sessionId r =>
            match get sessionId st with
            | Some (l', _) => if decide (l' = l) then [TerminalCompleteMsg r] else []
            | None => []
            end
        | _ => []
        end
  | None => []
  end.

(** [e] is one of the three callbacks that call [kill]. *)
Definition may_signal (e : Event) : bool :=
  match e with
  | KillExecution _ | TimerFire _ | WindowClosed _ => true
  | _ => false
  end.

(** [e] is one of the two handlers that write to an input stream. *)
Definition may_write (e : Event) : bool :=
  match e with
  | KillExecution _ | TerminalInput _ _ => true
  | _ => false
  end.

(** The session object that holds [p] as its active process is the one
    the callbacks of [p] close over. *)
Definition active_owner (st : State) : Prop :=
  ∀ l td p, heap st !! l = Some td → activeProcess td = Some p →
    ∃ pr, procs st !! p = Some pr ∧ termData pr = l.

(** [e] is a call of [execute-code] with session id [sid]. *)
Definition runs_on (sid : nat) (e : Event) : bool :=
  match e with
  | ExecuteCode _ _ (Some sid') _ => bool_decide (sid' = sid)
  | _ => false
  end.

(** A registry entry with exactly one argument before the code. *)
Definition single_flag (c : LangConfig) : bool :=
  match args c with Some [_] => true | _ => false end.

(** ** The injected page script: watching a code block

    What [processCodeBlocks] and the timers it starts keep for one [pre]
    element: the attributes [data-ds-processed], [data-ds-pending] and
    [data-ds-last-content], the monitors started on it (each an interval
    of 500 ms and a timeout of 10 s closing over the language found when
    it was started), and the Run buttons created for it, each with the
    language and the code its click handler closes over. *)

Record Monitor := mkMonitor {
  m_language : string;
  interval_on : bool;
  timeout_on : bool
}.

Record Block := mkBlock {
  processed : bool;
  pending : bool;
  last_content : option string;
  monitors : list Monitor;
  buttons : list (string * string)
}.

Definition new_block : Block := mkBlock false false None [] [].

(** [addRunButton(pre, language, code)]. *)
Definition addRunButton (language code : string) (b : Block) : Block :=
  if processed b then b
  else mkBlock true (pending b) (last_content b) (monitors b)
               (buttons b ++ [(language, code)]).

(** [clearInterval(checkInterval)] for monitor [i]. *)
Definition clear_interval (i : nat) (ms : list Monitor) : list Monitor :=
  alter (λ m, mkMonitor (m_language m) false (timeout_on m)) i ms.

(** What happens to a block: [processCodeBlocks] visits it, or the
    interval or the timeout of its monitor [i] runs.  [language] is what
    [getLanguage] returns for the block at that moment and [content] the
    text of the block at that moment. *)
Inductive BlockEvent :=
| Scan (language content : string)
| IntervalFires (i : nat) (content : string)
| TimeoutFires (i : nat) (content : string).

Section Blocks.

Variable blank : string → bool.

(** The body of the [forEach] of [processCodeBlocks]. *)
Definition scan (language content : string) (b : Block) : Block :=
  if processed b then b
  else if negb (offers_run language) then b
  else if blank content then b
  else if pending b then b
  else mkBlock (processed b) true (Some content)
               (monitors b ++ [mkMonitor language true true]) (buttons b).

(** The [setInterval] callback of monitor [i]. *)
Definition interval_fires (i : nat) (content : string) (b : Block) : Block :=
  match monitors b !! i with
  | Some m =>
      if interval_on m then
        if String.eqb content (from_option id "" (last_content b)) then
          addRunButton (m_language m) content
            (mkBlock (processed b) false None (clear_interval i (monitors b))
                     (buttons b))
        else mkBlock (processed b) (pending b) (Some content) (monitors b)
                     (buttons b)
      else b
  | None => b
  end.

(** The [setTimeout] callback of monitor [i]. *)
Definition timeout_fires (i : nat) (content : string) (b : Block) : Block :=
  match monitors b !! i with
  | Some m =>
      if timeout_on m then
        let ms := alter (λ m, mkMonitor (m_language m) false false) i
                        (monitors b) in
        if pending b then
          addRunButton (m_language m) content
            (mkBlock (processed b) false None ms (buttons b))
        else mkBlock (processed b) (pending b) (last_content b) ms (buttons b)
      else b
  | None => b
  end.

Definition block_step (ev : BlockEvent) (b : Block) : Block :=
  match ev with
  | Scan language content => scan language content b
  | IntervalFires i content => interval_fires i content b
  | TimeoutFires i content => timeout_fires i content b
  end.

Fixpoint block_run (evs : list BlockEvent) (b : Block) : Block :=
  match evs with
  | [] => b
  | ev :: r => block_run r (block_step ev b)
  end.

End Blocks.

(** What holds of a block after any sequence of events. *)
Record block_ok (b : Block) : Prop := mkBlockOk {
  ok_buttons : (List.length (buttons b) ≤ 1)%nat;
  ok_monitors : (List.length (monitors b) ≤ 1)%nat;
  ok_processed : processed b = true ↔ buttons b ≠ [];
  ok_idle : processed b = false → pending b = false → monitors b = [];
  ok_pending : pending b = true → processed b = false;
  ok_monitor_languages : Forall (λ m, offers_run (m_language m) = true) (monitors b);
  ok_button_languages : Forall (λ lc, offers_run lc.1 = true) (buttons b)
}.

(** * Properties *)

(** ** Strings and the shell *)

Lemma append_nil_r (s : string) : s ++ "" = s.
Proof. induction s as [|a s IH]; simpl; [done | by rewrite IH]. Qed.

Lemma append_assoc (s t u : string) : (s ++ t) ++ u = s ++ (t ++ u).
Proof. induction s as [|a s IH]; simpl; [done | by rewrite IH]. Qed.

Lemma plain_char_step a cur r :
  Sh.plain_char a = true →
  Sh.split Sh.Plain cur (String a r) = Sh.split Sh.Plain (Sh.push cur a) r.
Proof.
  unfold Sh.plain_char. intros H. apply negb_true_iff in H.
  repeat (apply orb_false_iff in H; destruct H as [H ?]).
  simpl. by rewrite H, H0, H1, H2.
Qed.

(** A plain word runs through to the text after it. *)
Lemma split_plain_some w : ∀ c rest,
  Sh.plain_word w = true →
  Sh.split Sh.Plain (Some c) (w ++ rest) = Sh.split Sh.Plain (Some (c ++ w)) rest.
Proof.
  induction w as [|a w IH]; intros c rest H.
  - by rewrite append_nil_r.
  - simpl in H. apply andb_true_iff in H as [Ha Hw].
    change (String a w ++ rest) with (String a (w ++ rest)).
    rewrite plain_char_step by done. cbn [Sh.push]. rewrite IH by done.
    rewrite append_assoc. reflexivity.
Qed.

Lemma split_plain_word w rest :
  Sh.plain_word w = true → w ≠ "" →
  Sh.split Sh.Plain None (w ++ " " ++ rest)
  = cons w <$> Sh.split Sh.Plain None rest.
Proof.
  destruct w as [|a w]; [done|]. simpl Sh.plain_word. intros H _.
  apply andb_true_iff in H as [Ha Hw].
  change (String a w ++ " " ++ rest) with (String a (w ++ " " ++ rest)).
  rewrite plain_char_step by done. simpl Sh.push.
  rewrite split_plain_some by done. simpl. reflexivity.
Qed.

Lemma split_quote_escape w r :
  Sh.split Sh.Quoted (Some w) ("'\''" ++ r)
  = Sh.split Sh.Quoted (Some (w ++ "'")) r.
Proof. reflexivity. Qed.

Lemma split_quoted_char a w r :
  Ascii.eqb a Str.QUOTE = false →
  Sh.split Sh.Quoted (Some w) (String a r)
  = Sh.split Sh.Quoted (Some (w ++ String a "")) r.
Proof. intros H. cbn [Sh.split]. by rewrite H. Qed.

(** Between the quotes, the escaped code reads back as the code. *)
Lemma split_quoted code : ∀ w rest,
  Sh.split Sh.Quoted (Some w) (escapeCode code ++ "'" ++ rest)
  = Sh.split Sh.Plain (Some (w ++ code)) rest.
Proof.
  unfold escapeCode.
  induction code as [|a code IH]; intros w rest.
  - rewrite append_nil_r. reflexivity.
  - cbn [Str.replace_all]. destruct (Ascii.eqb a Str.QUOTE) eqn:E.
    + apply Ascii.eqb_eq in E. subst a.
      rewrite append_assoc, split_quote_escape, IH, append_assoc.
      reflexivity.
    + change (String a (Str.replace_all Str.QUOTE "'\''" code) ++ "'" ++ rest)
        with (String a (Str.replace_all Str.QUOTE "'\''" code ++ "'" ++ rest)).
      rewrite split_quoted_char, IH, append_assoc by done. reflexivity.
Qed.

Lemma split_args a : ∀ rest,
  forallb (λ y, Sh.plain_word y && negb (String.eqb y "")) a = true →
  Sh.split Sh.Plain None (Str.join " " a ++ " " ++ rest)
  = (a ++.) <$> Sh.split Sh.Plain None rest.
Proof.
  induction a as [|x a IH]; intros rest H.
  - simpl. by destruct (Sh.split _ _ rest).
  - simpl in H. apply andb_true_iff in H as [Hx Ha].
    apply andb_true_iff in Hx as [Hp Hn].
    apply negb_true_iff, String.eqb_neq in Hn.
    destruct a as [|y a].
    + simpl Str.join. rewrite split_plain_word by done.
      by destruct (Sh.split _ _ rest).
    + change (Str.join " " (x :: y :: a)) with (x ++ " " ++ Str.join " " (y :: a)).
      rewrite !append_assoc. rewrite split_plain_word by done.
      rewrite IH by done.
      by destruct (Sh.split _ _ rest).
Qed.

Lemma words_wrapped c a code :
  plain_config (mkLangConfig (Some c) (Some a)) = true →
  Sh.words (wrapped_command (Some c) a code) = Some (c :: a ++ [code]).
Proof.
  unfold plain_config, Sh.words, wrapped_command. cbn [cmd args interpolate].
  intros H.
  apply andb_true_iff in H as [H Ha]. apply andb_true_iff in H as [Hp Hn].
  apply negb_true_iff, String.eqb_neq in Hn.
  rewrite split_plain_word by done.
  change (" '" ++ escapeCode code ++ "'") with (" " ++ "'" ++ escapeCode code ++ "'").
  rewrite split_args by done.
  change ("'" ++ escapeCode code ++ "'")
    with (String "'" (escapeCode code ++ "'" ++ "")).
  cbn [Sh.split]. change (Ascii.eqb "'" Str.QUOTE) with true. cbn iota.
  cbn [Sh.start]. rewrite split_quoted. reflexivity.
Qed.

Lemma own_lookup_plain tbl k c :
  forallb (λ kv, plain_config kv.2) tbl = true →
  own_lookup tbl k = Some c → plain_config c = true.
Proof.
  induction tbl as [|[k' v] tbl IH]; simpl; [done|].
  intros H. apply andb_true_iff in H as [Hv Ht].
  destruct (String.eqb k k'); [by intros [= <-] | by apply IH].
Qed.

Lemma registry_plain : forallb (λ kv, plain_config kv.2) LANGUAGE_COMMANDS = true.
Proof. reflexivity. Qed.

Lemma override_plain pf lang c :
  plain_config c = true → plain_config (platform_override pf lang c) = true.
Proof.
  unfold platform_override, plain_config. destruct c as [[x|] [a|]]; simpl; try done.
  intros H. pose proof H as H'. apply andb_true_iff in H' as [_ Ha].
  destruct pf, (is_python lang), (is_powershell lang); cbn [cmd args];
    try exact H; (apply andb_true_iff; split; [reflexivity | exact Ha]).
Qed.

Example escapeCode_example : escapeCode "echo 'a b'" = "echo '\''a b'\''".
Proof. reflexivity. Qed.

Example words_example :
  Sh.words (wrapped_command (Some "bash") ["-c"] "echo 'a b' $HOME")
  = Some ["bash"; "-c"; "echo 'a b' $HOME"].
Proof. reflexivity. Qed.

Example lookup_case_insensitive :
  lookup_language (Str.toLowerCase "PowerShell")
  = Some (entry "powershell" "-Command").
Proof. reflexivity. Qed.

Example lookup_unsupported : lookup_language (Str.toLowerCase "COBOL") = None.
Proof. reflexivity. Qed.

(** ** The language registry and the wrapper *)

Lemma own_lookup_supported lang c :
  own_lookup LANGUAGE_COMMANDS lang = Some c → lookup_language lang = Some c.
Proof. unfold lookup_language. by intros ->. Qed.

Lemma supported_config pf lang c0 :
  own_lookup LANGUAGE_COMMANDS lang = Some c0 →
  ∃ c a, platform_override pf lang c0 = mkLangConfig (Some c) (Some a)
         ∧ plain_config (mkLangConfig (Some c) (Some a)) = true.
Proof.
  intros H.
  pose proof (override_plain pf lang c0
                (own_lookup_plain _ _ _ registry_plain H)) as Hp.
  destruct (platform_override pf lang c0) as [[c|] [a|]]; try done.
  by exists c, a.
Qed.

(** C9.  On Linux, [execute-code] for a registered language spawns
    [script -qfec <command> /dev/null], where the command is the
    interpreter, its arguments and the code between single quotes with
    every single quote of the code replaced by quote, backslash, quote,
    quote; the shell splits that command into exactly the interpreter,
    its arguments and the original code as one word. *)
Theorem linux_wrapper_quotes_code st code language sessionId l td c0 :
  platform st = Linux →
  get sessionId st = Some (l, td) →
  own_lookup LANGUAGE_COMMANDS (Str.toLowerCase language) = Some c0 →
  ∃ c a pr,
    platform_override Linux (Str.toLowerCase language) c0
      = mkLangConfig (Some c) (Some a)
    ∧ execute_code code language sessionId SpawnOk st
      = ((execute_code code language sessionId SpawnOk st).1,
         ReplyPending (nextProc st))
    ∧ procs (execute_code code language sessionId SpawnOk st).1 !! nextProc st
      = Some pr
    ∧ spawnCmd pr = "script"
    ∧ spawnArgs pr
      = [ "-qfec";
          c ++ " " ++ Str.join " " a ++ " '"
            ++ Str.replace_all "'" "'\''" code ++ "'";
          "/dev/null" ]
    ∧ Sh.words (c ++ " " ++ Str.join " " a ++ " '"
                  ++ Str.replace_all "'" "'\''" code ++ "'")
      = Some (c :: a ++ [code]).
Proof.
  intros Hpf Hget Hown.
  destruct (supported_config Linux _ _ Hown) as (c & a & Hcfg & Hplain).
  exists c, a. unfold execute_code.
  rewrite Hget, (own_lookup_supported _ _ Hown), Hpf, Hcfg.
  cbn [args cmd spawn_invocation fst].
  eexists. split; [done|]. split; [reflexivity|].
  split; [apply lookup_insert_eq|]. cbn [spawnCmd spawnArgs spawn].
  split; [done|]. split; [done|].
  apply (words_wrapped c a code Hplain).
Qed.

Lemma linux_wrapper_quotes_code_witness :
  ∃ pr,
    procs (execute_code "print('hi')" "Python" (Some 1) SpawnOk
             (next (ShowExecutionModal "python" "print('hi')") (init Linux))).1
      !! 0 = Some pr
    ∧ spawnArgs pr = ["-qfec"; "python3 -c 'print('\''hi'\'')'"; "/dev/null"]
    ∧ Sh.words "python3 -c 'print('\''hi'\'')'"
      = Some ["python3"; "-c"; "print('hi')"].
Proof.
  destruct (linux_wrapper_quotes_code
              (next (ShowExecutionModal "python" "print('hi')") (init Linux))
              "print('hi')" "Python" (Some 1) 1
              (mkTermData (mkWindow "Terminal Output - python" "print('hi')"
                                    false false [])
                          None (echo "print('hi')") false None false)
              (entry "python3" "-c") eq_refl eq_refl eq_refl)
    as (c & a & pr & Hcfg & _ & Hp & _ & Ha & Hw).
  injection Hcfg as <- <-.
  exists pr. split; [exact Hp|]. split; [exact Ha | exact Hw].
Defined.

(** ** [execute-code]: the paths that start no process *)

(** C7.  [__executeCode(code, language)] invokes [execute-code] without a
    session id: in every state and for every code and language, the
    handler finds no session, starts nothing, changes nothing and answers
    [{ error: 'Session not found' }]; the answer is never a completion
    record, nor a promise left to a process. *)
Theorem execute_without_session st code language o :
  __executeCode code language o st
  = (st, ReplyExec (Error "Session not found"))
  ∧ procs (__executeCode code language o st).1 = procs st
  ∧ (∀ r, (__executeCode code language o st).2 ≠ ReplyExec (Completed r))
  ∧ (∀ p, (__executeCode code language o st).2 ≠ ReplyPending p).
Proof.
  assert (__executeCode code language o st
          = (st, ReplyExec (Error "Session not found"))) as ->.
  { unfold __executeCode, execute_code, get. reflexivity. }
  repeat split; intros; discriminate.
Qed.

Lemma get_Some sessionId st l td :
  get sessionId st = Some (l, td) →
  ∃ sid, sessionId = Some sid ∧ terminals st !! sid = Some l
         ∧ heap st !! l = Some td.
Proof.
  unfold get. destruct sessionId as [sid|]; [|done]. simpl.
  destruct (terminals st !! sid) as [l'|] eqn:Et; [|done]. simpl.
  destruct (heap st !! l') as [td'|] eqn:E; [|done]. simpl.
  intros [= <- <-]. by exists sid.
Qed.

(** C5, as stated, fails: on a session that has completed a run, a call
    with the tag cobol clears the completion state of the session. *)
Lemma unsupported_language_resets_session :
  lookup_language (Str.toLowerCase "cobol") = None
  ∧ (run completed_once (init Linux) ≫= session 1)
    = Some (mkTermData
              (mkWindow "Terminal Output - python" "print(1)" false false
                        [TerminalOutput Stdout "1"])
              None (echo "print(1)" ++ "1") true
              (Some (mkResult "1" "" (Some 0%Z) false)) false)
  ∧ (run (completed_once ++ [ExecuteCode "x" "cobol" (Some 1) SpawnOk])
         (init Linux) ≫= session 1)
    = Some (mkTermData
              (mkWindow "Terminal Output - python" "print(1)" false false
                        [TerminalOutput Stdout "1"])
              None (echo "print(1)" ++ "1") false None false).
Proof. repeat split; vm_compute; reflexivity. Qed.

(** C5, amended.  For a tag that is not a key of the registry,
    [execute-code] answers at once with an error, registers no process,
    no timer and sends nothing to any window.  With an unknown session
    nothing changes at all; otherwise the session object keeps its window,
    buffer and active process, and its three completion fields are reset
    to [false], [null], [false]. *)
Theorem unsupported_language_spec st code language sessionId o :
  own_lookup LANGUAGE_COMMANDS (Str.toLowerCase language) = None →
  (∃ message,
      (execute_code code language sessionId o st).2 = ReplyExec (Error message)
      ∧ (lookup_language (Str.toLowerCase language) = None →
         is_Some (get sessionId st) →
         message = "Unsupported language: " ++ language))
  ∧ procs (execute_code code language sessionId o st).1 = procs st
  ∧ nextProc (execute_code code language sessionId o st).1 = nextProc st
  ∧ timers (execute_code code language sessionId o st).1 = timers st
  ∧ terminals (execute_code code language sessionId o st).1 = terminals st
  ∧ match get sessionId st with
    | None => (execute_code code language sessionId o st).1 = st
    | Some (l, td) =>
        heap (execute_code code language sessionId o st).1
        = <[l := mkTermData (window td) (activeProcess td) (buffer td)
                            false None false]> (heap st)
    end.
Proof.
  intros Hown. unfold execute_code, lookup_language. rewrite Hown.
  destruct (get sessionId st) as [[l td]|] eqn:Hget.
  - destruct (inherited (Str.toLowerCase language)) eqn:Hin.
    + assert (args (platform_override (platform st) (Str.toLowerCase language)
                      (mkLangConfig None None)) = None) as ->.
      { unfold platform_override.
        by destruct (platform st), (is_python (Str.toLowerCase language)),
             (is_powershell (Str.toLowerCase language)). }
      cbn. repeat split; try done. exists spread_error. split; [done|]. done.
    + cbn. repeat split; try done. eexists. split; [done|]. done.
  - cbn. repeat split; try done. eexists. split; [done|].
    intros _ [? ?]. done.
Qed.

Lemma unsupported_language_spec_witness :
  (execute_code "x" "cobol" (Some 1) SpawnOk
     (next (ShowExecutionModal "python" "print(1)") (init Linux))).2
  = ReplyExec (Error "Unsupported language: cobol")
  ∧ procs (execute_code "x" "cobol" (Some 1) SpawnOk
             (next (ShowExecutionModal "python" "print(1)") (init Linux))).1
    = ∅.
Proof.
  destruct (unsupported_language_spec
              (next (ShowExecutionModal "python" "print(1)") (init Linux))
              "x" "cobol" (Some 1) SpawnOk eq_refl)
    as ((m & Hm & Hmsg) & Hp & _).
  split; [|exact Hp].
  rewrite Hm, (Hmsg eq_refl (ex_intro _ _ eq_refl)). reflexivity.
Defined.

(** ** Failures of [spawn] *)

(** C6, as stated, fails: after the ['error'] callback has resolved the
    run, the session is not complete, has no result and still holds the
    process as active; and once the ['close'] has followed, the session is
    complete with an ordinary result in which the error does not appear. *)
Lemma spawn_error_leaves_session_incomplete :
  (run failed_spawn (init Linux) ≫= session 1)
  = Some (mkTermData
            (mkWindow "Terminal Output - python" "print(1)" false false [])
            (Some 0) (echo "print(1)") false None false)
  ∧ (run failed_spawn (init Linux) ≫= completion_event 0)
    = Some (ErrorWithOutput "spawn script ENOENT" "" "")
  ∧ (run failed_then_closed (init Linux) ≫= session 1)
    = Some (mkTermData
              (mkWindow "Terminal Output - python" "print(1)" false false [])
              None (echo "print(1)") true
              (Some (mkResult "" "" (Some (-2)%Z) false)) false).
Proof. repeat split; vm_compute; reflexivity. Qed.

Lemma get_store_proc sessionId p pr st :
  get sessionId (store_proc p pr st) = get sessionId st.
Proof. reflexivity. Qed.

(** C6, amended.  The ['error'] callback of a process whose run is still
    pending resolves the run with the message and the output accumulated
    so far, and touches neither a session object nor a window: it does not
    mark the session complete and stores no result.  The session object of
    the process becomes complete only with the ['close'] of that process,
    whose stored result is the ordinary record and not the error, while
    the run keeps the error it was resolved with.  A [spawn] that throws,
    on any session and for any registered language, resolves the run with
    the message alone, starts no process, and leaves the session, reset by
    the call, not complete. *)
Theorem spawn_failure_spec st :
  (∀ p pr message,
      procs st !! p = Some pr →
      settled pr = None →
      step (ProcError p message) st
      = (set_procs (<[p := resolve (ErrorWithOutput message (stdout pr) (stderr pr))
                                   pr]> (procs st)) st, NoReply)
      ∧ settled (resolve (ErrorWithOutput message (stdout pr) (stderr pr)) pr)
        = Some (ErrorWithOutput message (stdout pr) (stderr pr)))
  ∧ (∀ p pr td message exitCode,
        procs st !! p = Some pr →
        settled pr = None →
        heap st !! termData pr = Some td →
        heap (next (ProcClose p exitCode) (next (ProcError p message) st))
          !! termData pr
        = Some (mkTermData (window td) None (buffer td) true
                  (Some (mkResult (stdout pr) (stderr pr) exitCode
                                  (wasInterrupted td)))
                  (wasInterrupted td))
        ∧ (settled <$> procs (next (ProcClose p exitCode)
                                (next (ProcError p message) st)) !! p)
          = Some (Some (ErrorWithOutput message (stdout pr) (stderr pr))))
  ∧ (∀ code language sessionId l td0 c0 thrown,
        get sessionId st = Some (l, td0) →
        own_lookup LANGUAGE_COMMANDS (Str.toLowerCase language) = Some c0 →
        execute_code code language sessionId (SpawnThrows thrown) st
        = (set_heap (<[l := mkTermData (window td0) (activeProcess td0)
                              (buffer td0) false None false]> (heap st)) st,
           ReplyExec (Error thrown))).
Proof.
  split; [|split].
  - intros p pr message Hp Hs.
    cbn [step]. unfold on_error. rewrite Hp. split; [done|].
    unfold resolve. cbn. by rewrite Hs.
  - intros p pr td message exitCode Hp Hs Htd.
    unfold next. cbn [step fst]. unfold on_error. rewrite Hp.
    unfold mark_closed. cbn [procs store_proc set_procs].
    rewrite lookup_insert_eq. unfold on_close.
    cbn [procs store_proc set_procs heap]. rewrite lookup_insert_eq.
    cbn [termData with_closed with_handle resolve]. rewrite Htd.
    cbn [heap store set_heap procs store_proc set_procs].
    rewrite !lookup_insert_eq. cbn. rewrite Hs. done.
  - intros code language sessionId l td0 c0 thrown Hget Hown.
    destruct (supported_config (platform st) _ _ Hown) as (c & a & Hcfg & _).
    unfold execute_code.
    rewrite Hget, (own_lookup_supported _ _ Hown), Hcfg.
    cbn [args cmd]. unfold spawn_invocation. by destruct (platform st).
Qed.

Lemma spawn_failure_spec_witness :
  execute_code "print(1)" "python" (Some 1) (SpawnThrows "spawn EAGAIN")
    (next (ShowExecutionModal "python" "print(1)") (init Linux))
  = (set_heap
       (<[1 := mkTermData
                 (mkWindow "Terminal Output - python" "print(1)" false false [])
                 None (echo "print(1)") false None false]>
          (heap (next (ShowExecutionModal "python" "print(1)") (init Linux))))
       (next (ShowExecutionModal "python" "print(1)") (init Linux)),
     ReplyExec (Error "spawn EAGAIN"))
  ∧ step (ProcError 0 "spawn script ENOENT")
         (next (ExecuteCode "print(1)" "python" (Some 1) SpawnOk)
               (next (ShowExecutionModal "python" "print(1)") (init Linux)))
    = (set_procs
         (<[0 := resolve (ErrorWithOutput "spawn script ENOENT" "" "")
                   (spawn 1 "script" ["-qfec"; "python3 -c 'print(1)'"; "/dev/null"]
                          false)]>
            (procs (next (ExecuteCode "print(1)" "python" (Some 1) SpawnOk)
                     (next (ShowExecutionModal "python" "print(1)") (init Linux)))))
         (next (ExecuteCode "print(1)" "python" (Some 1) SpawnOk)
               (next (ShowExecutionModal "python" "print(1)") (init Linux))),
       NoReply)
  ∧ (lastExecutionResult
       <$> heap (next (ProcClose 0 (Some (-2)%Z))
                  (next (ProcError 0 "spawn script ENOENT")
                     (next (ExecuteCode "print(1)" "python" (Some 1) SpawnOk)
                        (next (ShowExecutionModal "python" "print(1)")
                              (init Linux))))) !! 1)
    = Some (Some (mkResult "" "" (Some (-2)%Z) false)).
Proof.
  split; [|split].
  - exact (proj2 (proj2 (spawn_failure_spec
             (next (ShowExecutionModal "python" "print(1)") (init Linux))))
             "print(1)" "python" (Some 1) 1
             (mkTermData
                (mkWindow "Terminal Output - python" "print(1)" false false [])
                None (echo "print(1)") false None false)
             (entry "python3" "-c") "spawn EAGAIN" eq_refl eq_refl).
  - exact (proj1 (proj1 (spawn_failure_spec
             (next (ExecuteCode "print(1)" "python" (Some 1) SpawnOk)
                (next (ShowExecutionModal "python" "print(1)") (init Linux))))
             0 (spawn 1 "script" ["-qfec"; "python3 -c 'print(1)'"; "/dev/null"]
                      false)
             "spawn script ENOENT" eq_refl eq_refl)).
  - exact (f_equal (fmap lastExecutionResult) (proj1 (proj1 (proj2 (spawn_failure_spec
             (next (ExecuteCode "print(1)" "python" (Some 1) SpawnOk)
                (next (ShowExecutionModal "python" "print(1)") (init Linux)))))
             0 (spawn 1 "script" ["-qfec"; "python3 -c 'print(1)'"; "/dev/null"]
                      false)
             (mkTermData
                (mkWindow "Terminal Output - python" "print(1)" false false [])
                (Some 0) (echo "print(1)") false None false)
             "spawn script ENOENT" (Some (-2)%Z) eq_refl eq_refl eq_refl))).
Defined.

(** ** Interrupting a run *)

(** C3, as stated, fails: when the input stream is not writable the
    interrupt is [SIGINT], which sets [killed]; three seconds later the
    process has neither exited nor closed, and the timer sends nothing. *)
Lemma no_forceful_kill_after_signal :
  (run interrupted_by_signal (init Linux) ≫= λ st, procs st !! 0)
  = Some (mkProc 1 "script" ["-qfec"; "bash -c 'sleep 5'"; "/dev/null"] false
                 "" "" (Some (mkStdin false [])) true [SIGINT] true None false)
  ∧ (run interrupted_by_signal (init Linux) ≫= λ st, Some (timers st, clock st))
    = Some (∅, 3000).
Proof. split; vm_compute; reflexivity. Qed.

Ltac unfold_handlers :=
  unfold next, step, show_execution_modal, execute_code, kill_execution,
    close_terminal, terminal_complete, terminal_input, on_data, on_error,
    on_close, mark_closed, release_handle, end_stdin, on_closed,
    destroy_window, kill_timer, signal, advance, add_timer, register_proc,
    store, store_proc, set_heap, set_procs, set_terminals, set_timers in *.

Lemma kill_execution_active st sessionId l td p pr :
  get sessionId st = Some (l, td) →
  activeProcess td = Some p →
  procs st !! p = Some pr →
  next (KillExecution sessionId) st
  = add_timer (mkTimer (clock st + GRACE_MS) p)
      (store_proc p (if stdin_writable pr then write (String Str.ETX "") pr
                     else kill SIGINT pr)
         (store l (with_wasInterrupted true td) st)).
Proof.
  intros Hget Ha Hp. unfold next. cbn [step fst]. unfold kill_execution.
  by rewrite Hget, Ha, Hp.
Qed.

(** A pending timer keeps the handle it captured, whatever else happens. *)
Lemma timer_stable e st t tm :
  timers st !! t = Some tm → (t < nextTimer st)%nat → e ≠ TimerFire t →
  timers (next e st) !! t = Some tm ∧ (t < nextTimer (next e st))%nat.
Proof.
  intros Ht Hlt Hne.
  destruct e; unfold_handlers; cbn [fst];
    repeat case_match; cbn [timers nextTimer fst]; simplify_eq;
    try (split; [done | lia]).
  all: first [ rewrite lookup_insert_ne by lia
             | rewrite lookup_delete_ne by congruence ];
    (split; [done | lia]).
Qed.

Lemma timers_stable evs : ∀ st t tm,
  timers st !! t = Some tm → (t < nextTimer st)%nat →
  Forall (λ e, e ≠ TimerFire t) evs →
  timers (exec evs st) !! t = Some tm.
Proof.
  induction evs as [|e evs IH]; intros st t tm Ht Hlt Hall; [done|].
  inversion Hall as [|? ? He Hr]; subst.
  destruct (timer_stable e st t tm Ht Hlt He) as [Ht' Hlt'].
  cbn [exec]. by apply IH.
Qed.

(** C10.  The timer set by [kill-execution] holds the handle that was the
    active process of the session at that moment.  Whatever happens before
    it runs (new runs on the session, the closing of its window, other
    interrupts), the timer still holds that handle; it cannot run before
    3000 ms have passed; and when it runs it changes no session, and no
    process other than that handle, which receives [SIGKILL] only if its
    [killed] flag is false. *)
Theorem kill_timer_targets_captured_handle st sessionId l td p pr evs :
  get sessionId st = Some (l, td) →
  activeProcess td = Some p →
  procs st !! p = Some pr →
  Forall (λ e, e ≠ TimerFire (nextTimer st)) evs →
  timers (exec evs (next (KillExecution sessionId) st)) !! nextTimer st
  = Some (mkTimer (clock st + 3000) p)
  ∧ (enabled (TimerFire (nextTimer st))
       (exec evs (next (KillExecution sessionId) st)) = true →
     (clock st + 3000 ≤ clock (exec evs (next (KillExecution sessionId) st)))%nat)
  ∧ (∀ q, q ≠ p →
       procs (next (TimerFire (nextTimer st))
                (exec evs (next (KillExecution sessionId) st))) !! q
       = procs (exec evs (next (KillExecution sessionId) st)) !! q)
  ∧ procs (next (TimerFire (nextTimer st))
             (exec evs (next (KillExecution sessionId) st))) !! p
    = (λ pr2, if killed pr2 then pr2 else kill SIGKILL pr2)
        <$> procs (exec evs (next (KillExecution sessionId) st)) !! p
  ∧ heap (next (TimerFire (nextTimer st))
            (exec evs (next (KillExecution sessionId) st)))
    = heap (exec evs (next (KillExecution sessionId) st))
  ∧ terminals (next (TimerFire (nextTimer st))
                 (exec evs (next (KillExecution sessionId) st)))
    = terminals (exec evs (next (KillExecution sessionId) st))
  ∧ timers (next (TimerFire (nextTimer st))
              (exec evs (next (KillExecution sessionId) st))) !! nextTimer st
    = None.
Proof.
  intros Hget Ha Hp Hall.
  set (st1 := next (KillExecution sessionId) st).
  assert (timers st1 !! nextTimer st = Some (mkTimer (clock st + 3000) p)
          ∧ (nextTimer st < nextTimer st1)%nat) as [Ht1 Hlt1].
  { unfold st1. rewrite (kill_execution_active st sessionId l td p pr Hget Ha Hp).
    unfold add_timer. cbn [timers nextTimer store_proc store set_procs set_heap].
    rewrite lookup_insert_eq. split; [done | lia]. }
  pose proof (timers_stable evs st1 _ _ Ht1 Hlt1 Hall) as Ht2.
  set (st2 := exec evs st1) in *.
  split; [exact Ht2|]. split.
  { unfold enabled. rewrite Ht2. cbn [due]. intros H. by apply Nat.leb_le in H. }
  unfold next. cbn [step fst]. unfold kill_timer. rewrite Ht2.
  cbn [target procs set_timers]. unfold signal. cbn [procs set_timers].
  destruct (procs st2 !! p) as [pr2|] eqn:Hp2; [destruct (killed pr2) eqn:Hk|];
    cbn [procs heap terminals timers store_proc set_procs set_timers fmap
         option_fmap option_map];
    rewrite ?lookup_delete_eq, ?lookup_insert_eq, ?Hp2, ?Hk; repeat split;
    try done; intros q Hq; by rewrite lookup_insert_ne.
Qed.

Lemma kill_timer_targets_captured_handle_witness :
  timers (exec [ ExecuteCode "sleep 9" "bash" (Some 1) SpawnOk;
                 WindowClosed 1; Tick 3000 ]
            (next (KillExecution (Some 1))
               (next (ExecuteCode "sleep 5" "bash" (Some 1) SpawnOk)
                  (next (ShowExecutionModal "bash" "sleep 5") (init Linux)))))
    !! 0
  = Some (mkTimer 3000 0).
Proof.
  apply (kill_timer_targets_captured_handle
           (next (ExecuteCode "sleep 5" "bash" (Some 1) SpawnOk)
              (next (ShowExecutionModal "bash" "sleep 5") (init Linux)))
           (Some 1) 1
           (mkTermData
              (mkWindow "Terminal Output - bash" "sleep 5" false false [])
              (Some 0) (echo "sleep 5") false None false)
           0
           (spawn 1 "script" ["-qfec"; "bash -c 'sleep 5'"; "/dev/null"] false)
           [ ExecuteCode "sleep 9" "bash" (Some 1) SpawnOk;
             WindowClosed 1; Tick 3000 ]
           eq_refl eq_refl eq_refl).
  repeat constructor; discriminate.
Defined.

(** ** Invariants of the reachable states *)

Ltac split_insert :=
  repeat match goal with
  | H : <[_ := _]> _ !! _ = Some _ |- _ =>
      apply lookup_insert_Some in H as [[? ?] | [? H]]
  end; simplify_eq.

Ltac use_get :=
  repeat match goal with
  | H : get _ _ = Some (_, _) |- _ =>
      apply get_Some in H as (? & ? & ? & ?)
  end.

Lemma complete_step e st :
  (∀ l td, heap st !! l = Some td →
     (isExecutionComplete td = true ↔ is_Some (lastExecutionResult td))
     ∧ (isExecutionComplete td = true → activeProcess td = None)) →
  ∀ l td, heap (next e st) !! l = Some td →
     (isExecutionComplete td = true ↔ is_Some (lastExecutionResult td))
     ∧ (isExecutionComplete td = true → activeProcess td = None).
Proof.
  intros IH l td H.
  destruct e; unfold_handlers; unfold forward, reset_execution, with_window,
    with_buffer, with_activeProcess, with_wasInterrupted in *;
    repeat case_match; use_get; cbn [heap fst] in *; split_insert;
    cbn [isExecutionComplete lastExecutionResult activeProcess];
    try (by eapply IH);
    try (split; [split; [done | by intros [? ?]] | done]);
    try (split; [split; [done | by eauto] | done]);
    try (match goal with
         | Hh : heap st !! _ = Some ?t |- context [isExecutionComplete ?t] =>
             destruct (IH _ _ Hh) as [? Hx]; split; [done|];
             intros Hc; specialize (Hx Hc); congruence
         end).
Qed.

Ltac unfold_updates :=
  unfold forward, reset_execution, with_window, with_buffer,
    with_activeProcess, with_wasInterrupted, accumulate, resolve, kill, write,
    spawn, with_stdout, with_stderr, with_stdin, with_handle, with_closed,
    send in *.

Ltac simpl_fields :=
  cbn [heap procs terminals timers nextTerminalId nextProc nextTimer clock
       platform fst snd
       window activeProcess buffer isExecutionComplete lastExecutionResult
       wasInterrupted title page_code closing destroyed sent
       termData spawnCmd spawnArgs useShell stdout stderr stdin killed
       kill_calls handle settled closed writable written due target] in *.

Ltac step_cases e :=
  destruct e; unfold_handlers; unfold_updates; simpl_fields;
  repeat (case_match; simpl_fields); use_get; simpl_fields.

Ltac lookup_cases :=
  repeat (rewrite lookup_insert in *; case_decide; simplify_eq; simpl_fields).

Ltac split_delete :=
  repeat match goal with
  | H : delete _ _ !! _ = Some _ |- _ =>
      apply lookup_delete_Some in H as [? H]
  end.

Lemma heap_fresh_step e st :
  (∀ l, (nextTerminalId st ≤ l)%nat → heap st !! l = None) →
  ∀ l, (nextTerminalId (next e st) ≤ l)%nat → heap (next e st) !! l = None.
Proof.
  intros IH l H.
  assert (∀ k td, heap st !! k = Some td → k ≠ l ∨ (l < nextTerminalId st)%nat)
    as Hold.
  { intros k td Hk. destruct (decide (k = l)) as [->|]; [|by left].
    right. destruct (decide (nextTerminalId st ≤ l)%nat) as [Hle|]; [|lia].
    rewrite (IH _ Hle) in Hk. done. }
  step_cases e; simplify_eq;
    repeat match goal with
    | |- <[?k := _]> _ !! _ = None =>
        rewrite lookup_insert_ne;
        [| first [ lia
                 | match goal with
                   | Hk : heap st !! k = Some _ |- _ =>
                       destruct (Hold _ _ Hk); [done | lia]
                   end ] ]
    end; try (apply IH; lia).
Qed.

Lemma proc_fresh_step e st :
  (∀ p, (nextProc st ≤ p)%nat → procs st !! p = None) →
  ∀ p, (nextProc (next e st) ≤ p)%nat → procs (next e st) !! p = None.
Proof.
  intros IH p H.
  assert (∀ k pr, procs st !! k = Some pr → k ≠ p ∨ (p < nextProc st)%nat)
    as Hold.
  { intros k pr Hk. destruct (decide (k = p)) as [->|]; [|by left].
    right. destruct (decide (nextProc st ≤ p)%nat) as [Hle|]; [|lia].
    rewrite (IH _ Hle) in Hk. done. }
  step_cases e; simplify_eq;
    repeat match goal with
    | |- <[?k := _]> _ !! _ = None =>
        rewrite lookup_insert_ne;
        [| first [ lia
                 | match goal with
                   | Hk : procs st !! k = Some _ |- _ =>
                       destruct (Hold _ _ Hk); [done | lia]
                   end ] ]
    end; try (apply IH; lia).
Qed.

Lemma terminals_step e st :
  (∀ sid l, terminals st !! sid = Some l →
     l = sid ∧ ∃ td, heap st !! l = Some td ∧ destroyed (window td) = false) →
  ∀ sid l, terminals (next e st) !! sid = Some l →
     l = sid ∧ ∃ td, heap (next e st) !! l = Some td
                     ∧ destroyed (window td) = false.
Proof.
  intros IH sid l H.
  step_cases e; split_insert; split_delete; simplify_eq;
    try (destruct (IH _ _ H) as (-> & td & Htd & Hd));
    try (split; [done|]);
    lookup_cases; eauto.
Qed.

Lemma procs_step e st :
  (∀ p pr, procs st !! p = Some pr →
     is_Some (stdin pr) ∧ is_Some (heap st !! termData pr)) →
  ∀ p pr, procs (next e st) !! p = Some pr →
     is_Some (stdin pr) ∧ is_Some (heap (next e st) !! termData pr).
Proof.
  intros IH p pr H.
  step_cases e; split_insert; simplify_eq; simpl_fields;
    repeat match goal with
    | Hp : procs st !! _ = Some _ |- _ => apply IH in Hp as [? ?]
    end;
    lookup_cases; eauto.
Qed.

Lemma active_step e st :
  (∀ l td p, heap st !! l = Some td → activeProcess td = Some p →
     is_Some (procs st !! p)) →
  ∀ l td p, heap (next e st) !! l = Some td → activeProcess td = Some p →
     is_Some (procs (next e st) !! p).
Proof.
  intros IH l td p H Ha.
  step_cases e; split_insert; simplify_eq; simpl_fields;
    lookup_cases; eauto.
Qed.

Lemma outputs_app ms ms' : outputs (ms ++ ms') = outputs ms ++ outputs ms'.
Proof.
  induction ms as [|[ty d|r] ms IH]; simpl; [done| |done].
  by rewrite IH, append_assoc.
Qed.

Lemma buffer_step e st :
  (∀ l td, heap st !! l = Some td → destroyed (window td) = false →
     buffer td = echo (page_code (window td)) ++ outputs (sent (window td))) →
  ∀ l td, heap (next e st) !! l = Some td → destroyed (window td) = false →
     buffer td = echo (page_code (window td)) ++ outputs (sent (window td)).
Proof.
  intros IH l td H Hd.
  step_cases e; split_insert; simplify_eq; simpl_fields;
    rewrite ?outputs_app; cbn [outputs]; rewrite ?append_nil_r;
    try (by eapply IH);
    try done; try congruence;
    try (erewrite IH by eauto; by rewrite ?append_assoc).
Qed.

Lemma settled_step e st :
  (∀ p pr, procs st !! p = Some pr → closed pr = false →
     settled pr = None ∨ settled_by_error pr) →
  ∀ p pr, procs (next e st) !! p = Some pr → closed pr = false →
     settled pr = None ∨ settled_by_error pr.
Proof.
  intros IH p pr H Hc. unfold settled_by_error in *.
  step_cases e; split_insert; simplify_eq; simpl_fields;
    try (by eapply IH); eauto.
  match goal with
  | Hp : procs st !! _ = Some ?q, Hs : settled ?q = Some _ |- _ =>
      destruct (IH _ _ Hp Hc) as [?|?]; [congruence | rewrite <- Hs; by right]
  end.
Qed.

Lemma result_step e st :
  enabled e st = true →
  (∀ p, (nextProc st ≤ p)%nat → procs st !! p = None) →
  (∀ p pr, procs st !! p = Some pr → closed pr = false →
     settled pr = None ∨ settled_by_error pr) →
  (∀ l td r, heap st !! l = Some td → lastExecutionResult td = Some r →
     ∃ p pr, procs st !! p = Some pr ∧ termData pr = l ∧ closed pr = true
             ∧ (settled pr = Some (Completed r) ∨ settled_by_error pr)) →
  ∀ l td r, heap (next e st) !! l = Some td → lastExecutionResult td = Some r →
     ∃ p pr, procs (next e st) !! p = Some pr ∧ termData pr = l
             ∧ closed pr = true
             ∧ (settled pr = Some (Completed r) ∨ settled_by_error pr).
Proof.
  intros Hen Hfresh Hset IH l td r H Hr. unfold settled_by_error in *.
  unfold enabled, is_open in Hen.
  step_cases e; split_insert; simplify_eq; simpl_fields;
    try (by eapply IH);
    try (match goal with
         | Hh : heap st !! _ = Some ?t, Hr : lastExecutionResult ?t = Some _
           |- _ =>
             destruct (IH _ _ _ Hh Hr) as (p' & pr' & Hp' & Ht' & Hc' & Hs');
             exists p'; lookup_cases;
             try (match goal with
                  | Hx : procs st !! nextProc st = Some _ |- _ =>
                      rewrite Hfresh in Hx by lia; done
                  end);
             try (rewrite Hc' in Hen; done);
             eexists; (split; [first [reflexivity | eassumption]|]);
             simpl_fields; by eauto
         end).
  all: apply negb_true_iff in Hen;
    match goal with Hp : procs _ !! ?q = Some _ |- _ => exists q end;
    eexists; (split; [apply lookup_insert_eq|]); simpl_fields;
    (split; [done|]); (split; [done|]); simplify_eq.
  - match goal with
    | Hp : procs st !! _ = Some ?q, Hs : settled ?q = Some _ |- _ =>
        destruct (Hset _ _ Hp Hen) as [?|?];
        [congruence | rewrite <- Hs; by right]
    end.
  - by left.
Qed.

Lemma wf_init pf : wf (init pf).
Proof. split; intros *; cbn [init heap procs terminals]; by rewrite ?lookup_empty. Qed.

Lemma wf_step e st : wf st → enabled e st = true → wf (next e st).
Proof.
  intros [H1 H2 H3 H4 H5 H6 H7 H8 H9] Hen. split.
  - by apply heap_fresh_step.
  - by apply proc_fresh_step.
  - by apply terminals_step.
  - by apply procs_step.
  - by apply active_step.
  - by apply complete_step.
  - by apply buffer_step.
  - by apply settled_step.
  - by apply result_step.
Qed.

Lemma reachable_wf pf st : reachable pf st → wf st.
Proof. induction 1; [apply wf_init | by apply wf_step]. Qed.

Lemma run_reachable pf evs : ∀ st st',
  reachable pf st → run evs st = Some st' → reachable pf st'.
Proof.
  induction evs as [|e evs IH]; intros st st' Hr H; cbn [run] in H.
  - by injection H as <-.
  - destruct (enabled e st) eqn:He; [|done].
    eapply IH; [|exact H]. by apply reachable_step.
Qed.

(** ** Interrupting a run: the timer and the [killed] flag *)

Lemma run_exec evs : ∀ st st', run evs st = Some st' → exec evs st = st'.
Proof.
  induction evs as [|e evs IH]; intros st st' H; cbn [run exec] in *.
  - by injection H.
  - destruct (enabled e st); [by apply IH | done].
Qed.

(** The [killed] flag of a process is only ever set, and only by the
    three callbacks that call [kill]. *)
Lemma killed_step e st p pr :
  wf st → procs st !! p = Some pr →
  ∃ pr', procs (next e st) !! p = Some pr'
    ∧ (killed pr = true → killed pr' = true)
    ∧ (may_signal e = false → killed pr' = killed pr).
Proof.
  intros Hwf Hp. pose proof (wf_proc_fresh st Hwf) as Hf.
  assert (p ≠ nextProc st) as Hne.
  { intros ->. rewrite Hf in Hp by lia. done. }
  clear Hwf Hf.
  step_cases e; lookup_cases; repeat case_decide; simplify_eq;
    (eexists; split; [first [reflexivity | eassumption]|]); simpl_fields;
    cbn [may_signal]; split; intros; try done;
    try congruence;
    match goal with H : killed _ = true |- _ => by rewrite H | _ => idtac end.
Qed.

Lemma killed_run pf evs : ∀ st st' p pr,
  reachable pf st → run evs st = Some st' → procs st !! p = Some pr →
  ∃ pr', procs st' !! p = Some pr'
    ∧ (killed pr = true → killed pr' = true)
    ∧ (Forall (λ e, may_signal e = false) evs → killed pr' = killed pr).
Proof.
  induction evs as [|e evs IH]; intros st st' p pr Hr Hrun Hp; cbn [run] in Hrun.
  - injection Hrun as <-. by exists pr.
  - destruct (enabled e st) eqn:He; [|done].
    destruct (killed_step e st p pr (reachable_wf _ _ Hr) Hp)
      as (pr1 & Hp1 & Hk1 & Hq1).
    destruct (IH _ _ p pr1 (reachable_step _ _ _ Hr He) Hrun Hp1)
      as (pr' & Hp' & Hk' & Hq').
    exists pr'. split; [done|]. split; [by auto|].
    intros Hall. inversion Hall as [|? ? Hm Hrest]; subst.
    by rewrite Hq', Hq1.
Qed.

(** A timer callback leaves a process whose [killed] flag is set as it
    is. *)
Lemma timer_spares_killed t st p pr :
  procs st !! p = Some pr → killed pr = true →
  procs (next (TimerFire t) st) !! p = Some pr.
Proof.
  intros Hp Hk. unfold next. cbn [step fst]. unfold kill_timer.
  destruct (timers st !! t) as [tm|]; [|done].
  cbn [procs set_timers].
  destruct (decide (target tm = p)) as [->|Hne].
  - by rewrite Hp, Hk.
  - destruct (procs st !! target tm) as [q|] eqn:Hq; [|done].
    destruct (killed q); [done|].
    unfold signal. cbn [procs set_timers]. rewrite Hq.
    cbn [procs store_proc set_procs]. by rewrite lookup_insert_ne.
Qed.

(** The signal sent when a window is closed reaches the active process
    of its session. *)
Lemma closed_signals_active st sid td p pr :
  terminals st !! sid = Some sid →
  heap st !! sid = Some td →
  activeProcess td = Some p →
  procs st !! p = Some pr →
  procs (next (WindowClosed sid) st) !! p = Some (kill SIGTERM pr).
Proof.
  intros Ht Hh Ha Hp. unfold next. cbn [step fst].
  unfold on_closed, destroy_window, get. rewrite Hh.
  cbn [terminals heap store set_heap mbind option_bind]. rewrite Ht.
  cbn [mbind option_bind]. rewrite lookup_insert_eq.
  cbn [mbind option_bind activeProcess with_window]. rewrite Ha.
  unfold signal. cbn [procs store set_heap]. rewrite Hp.
  cbn [procs set_terminals store_proc set_procs]. apply lookup_insert_eq.
Qed.

(** C3, amended.  [kill-execution] on a session with an active process
    sets [wasInterrupted], writes the byte 3 to the input stream of the
    process when it is writable and calls [kill('SIGINT')] otherwise, and
    sets a timer due 3000 ms later for that process.  The timer cannot
    run earlier; when it runs it calls [kill('SIGKILL')] exactly when the
    [killed] flag of the process is still false.  After the write, on a
    process not signalled before, the flag is still false and the timer,
    which can run once 3000 ms have passed, sends [SIGKILL] when no other
    [kill-execution], window close or timer comes in between.  A [SIGINT]
    delivered to an attached process sets the flag, and so does the
    [SIGTERM] of the ['closed'] callback when the window of the session
    is closed right after the interrupt.  The flag is never cleared: once
    it is set, no timer sends anything to the process any more, whether it
    has exited or not. *)
Theorem kill_execution_spec st sessionId l td p pr :
  get sessionId st = Some (l, td) →
  activeProcess td = Some p →
  procs st !! p = Some pr →
  heap (next (KillExecution sessionId) st)
  = <[l := mkTermData (window td) (activeProcess td) (buffer td)
                      (isExecutionComplete td) (lastExecutionResult td) true]>
      (heap st)
  ∧ procs (next (KillExecution sessionId) st)
    = <[p := if stdin_writable pr then write (String Str.ETX "") pr
             else kill SIGINT pr]> (procs st)
  ∧ timers (next (KillExecution sessionId) st)
    = <[nextTimer st := mkTimer (clock st + 3000) p]> (timers st)
  ∧ enabled (TimerFire (nextTimer st)) (next (KillExecution sessionId) st)
    = false
  ∧ (∀ st2 pr2,
      timers st2 !! nextTimer st = Some (mkTimer (clock st + 3000) p) →
      procs st2 !! p = Some pr2 →
      procs (next (TimerFire (nextTimer st)) st2)
      = if killed pr2 then procs st2
        else <[p := kill SIGKILL pr2]> (procs st2))
  ∧ (∀ pf evs st2,
      reachable pf st →
      run evs (next (KillExecution sessionId) st) = Some st2 →
      ∃ pr2, procs st2 !! p = Some pr2
        ∧ (stdin_writable pr = true → killed pr = false →
           Forall (λ e, may_signal e = false) evs →
           killed pr2 = false
           ∧ timers st2 !! nextTimer st = Some (mkTimer (clock st + 3000) p)
           ∧ enabled (TimerFire (nextTimer st)) st2
             = (clock st + 3000 <=? clock st2)%nat
           ∧ procs (next (TimerFire (nextTimer st)) st2)
             = <[p := kill SIGKILL pr2]> (procs st2))
        ∧ (stdin_writable pr = false → handle pr = true →
           killed pr2 = true
           ∧ ∀ t, procs (next (TimerFire t) st2) !! p = Some pr2)
        ∧ (killed pr2 = true →
           ∀ evs' st3, run evs' st2 = Some st3 →
           ∃ pr3, procs st3 !! p = Some pr3
             ∧ killed pr3 = true
             ∧ ∀ t, procs (next (TimerFire t) st3) !! p = Some pr3))
  ∧ (∀ pf sid evs st2,
      reachable pf st →
      sessionId = Some sid →
      handle pr = true →
      run (WindowClosed sid :: evs) (next (KillExecution sessionId) st)
      = Some st2 →
      ∃ pr2, procs st2 !! p = Some pr2
        ∧ killed pr2 = true
        ∧ ∀ t, procs (next (TimerFire t) st2) !! p = Some pr2).
Proof.
  intros Hget Ha Hp.
  assert (∀ st2 pr2,
      timers st2 !! nextTimer st = Some (mkTimer (clock st + 3000) p) →
      procs st2 !! p = Some pr2 →
      procs (next (TimerFire (nextTimer st)) st2)
      = if killed pr2 then procs st2
        else <[p := kill SIGKILL pr2]> (procs st2)) as Hfire.
  { intros st2 pr2 Ht Hp2. unfold next. cbn [step fst]. unfold kill_timer.
    rewrite Ht. cbn [target procs set_timers]. rewrite Hp2.
    destruct (killed pr2); [done|].
    unfold signal. cbn [procs set_timers]. rewrite Hp2. done. }
  pose proof (kill_execution_active st sessionId l td p pr Hget Ha Hp) as Hst1.
  set (pr1 := if stdin_writable pr then write (String Str.ETX "") pr
              else kill SIGINT pr) in *.
  assert (procs (next (KillExecution sessionId) st) !! p = Some pr1) as Hp1.
  { rewrite Hst1. cbn [add_timer procs store_proc set_procs].
    apply lookup_insert_eq. }
  assert (timers (next (KillExecution sessionId) st) !! nextTimer st
          = Some (mkTimer (clock st + 3000) p)
          ∧ (nextTimer st < nextTimer (next (KillExecution sessionId) st))%nat)
    as [Ht1 Hlt1].
  { rewrite Hst1. unfold add_timer.
    cbn [timers nextTimer store_proc store set_procs set_heap].
    rewrite lookup_insert_eq. split; [done | lia]. }
  split; [by rewrite Hst1|]. split; [by rewrite Hst1|]. split; [by rewrite Hst1|].
  split.
  { unfold enabled. rewrite Ht1. cbn [due]. rewrite Hst1.
    cbn [clock add_timer store_proc store set_procs set_heap].
    apply Nat.leb_gt. lia. }
  split; [exact Hfire|]. split.
  - intros pf evs st2 Hr Hrun.
    assert (reachable pf (next (KillExecution sessionId) st)) as Hr1
      by (by apply reachable_step).
    destruct (killed_run pf evs _ _ p pr1 Hr1 Hrun Hp1)
      as (pr2 & Hp2 & Hmono & Hsame).
    exists pr2. split; [done|]. split.
    + intros Hw Hk Hall.
      assert (killed pr2 = false) as Hk2.
      { rewrite (Hsame Hall). unfold pr1. rewrite Hw. unfold write.
        by destruct (stdin pr). }
      assert (timers st2 !! nextTimer st = Some (mkTimer (clock st + 3000) p))
        as Ht2.
      { rewrite <- (run_exec _ _ _ Hrun). apply (timers_stable evs _ _ _ Ht1 Hlt1).
        eapply Forall_impl; [exact Hall|]. by intros e He ->. }
      split; [done|]. split; [done|]. split.
      { unfold enabled. by rewrite Ht2. }
      by rewrite (Hfire st2 pr2 Ht2 Hp2), Hk2.
    + split.
      * intros Hw Hh.
        assert (killed pr2 = true) as Hk2.
        { apply Hmono. unfold pr1. rewrite Hw. cbn [kill killed].
          rewrite Hh. apply orb_true_r. }
        split; [done|]. intros t. by apply timer_spares_killed.
      * intros Hk2 evs' st3 Hrun'.
        destruct (killed_run pf evs' _ _ p pr2 (run_reachable _ _ _ _ Hr1 Hrun)
                    Hrun' Hp2) as (pr3 & Hp3 & Hmono3 & _).
        exists pr3. split; [done|]. split; [by apply Hmono3|].
        intros t. apply timer_spares_killed; [done | by apply Hmono3].
  - intros pf sid evs st2 Hr -> Hh Hrun.
    assert (reachable pf (next (KillExecution (Some sid)) st)) as Hr1
      by (by apply reachable_step).
    cbn [run] in Hrun.
    destruct (enabled (WindowClosed sid) (next (KillExecution (Some sid)) st))
      eqn:Hen; [|done].
    apply get_Some in Hget as (sid' & [= <-] & Hterm & Hheap).
    destruct (wf_terminals st (reachable_wf _ _ Hr) _ _ Hterm) as (-> & _).
    assert (procs (next (WindowClosed sid) (next (KillExecution (Some sid)) st))
              !! p = Some (kill SIGTERM pr1)) as Hp1'.
    { apply (closed_signals_active _ sid
               (mkTermData (window td) (activeProcess td) (buffer td)
                  (isExecutionComplete td) (lastExecutionResult td) true));
        [by rewrite Hst1 | | done | done].
      rewrite Hst1.
      cbn [add_timer heap store_proc set_procs store set_heap].
      apply lookup_insert_eq. }
    destruct (killed_run pf evs _ _ p _ (reachable_step _ _ _ Hr1 Hen) Hrun Hp1')
      as (pr2 & Hp2 & Hmono & _).
    assert (killed pr2 = true) as Hk2.
    { apply Hmono. cbn [kill killed]. unfold pr1.
      destruct (stdin_writable pr); [unfold write; destruct (stdin pr)|];
        cbn [handle with_stdin kill]; rewrite Hh; apply orb_true_r. }
    exists pr2. split; [done|]. split; [done|].
    intros t. by apply timer_spares_killed.
Qed.

Lemma kill_execution_spec_witness :
  procs (next (KillExecution (Some 1))
           (next (ExecuteCode "sleep 5" "bash" (Some 1) SpawnOk)
              (next (ShowExecutionModal "bash" "sleep 5") (init Linux))))
    !! 0
  = Some (mkProc 1 "script" ["-qfec"; "bash -c 'sleep 5'"; "/dev/null"] false
                 "" "" (Some (mkStdin true [String Str.ETX ""])) false [] true
                 None false)
  ∧ (∃ pr2,
       procs (exec [ Tick 3000 ]
                (next (KillExecution (Some 1))
                   (next (ExecuteCode "sleep 5" "bash" (Some 1) SpawnOk)
                      (next (ShowExecutionModal "bash" "sleep 5") (init Linux)))))
         !! 0 = Some pr2
       ∧ procs (next (TimerFire 0)
                  (exec [ Tick 3000 ]
                     (next (KillExecution (Some 1))
                        (next (ExecuteCode "sleep 5" "bash" (Some 1) SpawnOk)
                           (next (ShowExecutionModal "bash" "sleep 5")
                                 (init Linux))))))
         = <[0 := kill SIGKILL pr2]>
             (procs (exec [ Tick 3000 ]
                       (next (KillExecution (Some 1))
                          (next (ExecuteCode "sleep 5" "bash" (Some 1) SpawnOk)
                             (next (ShowExecutionModal "bash" "sleep 5")
                                   (init Linux)))))))
  ∧ (∃ pr2,
       procs (exec [ WindowClosed 1; Tick 3000 ]
                (next (KillExecution (Some 1))
                   (next (ExecuteCode "sleep 5" "bash" (Some 1) SpawnOk)
                      (next (ShowExecutionModal "bash" "sleep 5") (init Linux)))))
         !! 0 = Some pr2
       ∧ killed pr2 = true
       ∧ procs (next (TimerFire 0)
                  (exec [ WindowClosed 1; Tick 3000 ]
                     (next (KillExecution (Some 1))
                        (next (ExecuteCode "sleep 5" "bash" (Some 1) SpawnOk)
                           (next (ShowExecutionModal "bash" "sleep 5")
                                 (init Linux))))))
           !! 0 = Some pr2).
Proof.
  destruct (kill_execution_spec
              (next (ExecuteCode "sleep 5" "bash" (Some 1) SpawnOk)
                 (next (ShowExecutionModal "bash" "sleep 5") (init Linux)))
              (Some 1) 1
              (mkTermData
                 (mkWindow "Terminal Output - bash" "sleep 5" false false [])
                 (Some 0) (echo "sleep 5") false None false)
              0
              (spawn 1 "script" ["-qfec"; "bash -c 'sleep 5'"; "/dev/null"] false)
              eq_refl eq_refl eq_refl) as (_ & Hp & _ & _ & _ & Hlater & Hclosed).
  assert (reachable Linux
            (next (ExecuteCode "sleep 5" "bash" (Some 1) SpawnOk)
               (next (ShowExecutionModal "bash" "sleep 5") (init Linux)))) as Hr.
  { exact (run_reachable Linux
             [ ShowExecutionModal "bash" "sleep 5";
               ExecuteCode "sleep 5" "bash" (Some 1) SpawnOk ]
             (init Linux) _ (reachable_init Linux) eq_refl). }
  split; [rewrite Hp; apply lookup_insert_eq|]. split.
  - destruct (Hlater Linux [ Tick 3000 ] _ Hr eq_refl) as (pr2 & Hp2 & Hwrite & _).
    exists pr2. split; [exact Hp2|].
    destruct (Hwrite eq_refl eq_refl) as (_ & _ & _ & Hfire);
      [repeat constructor | exact Hfire].
  - destruct (Hclosed Linux 1 [ Tick 3000 ] _ Hr eq_refl eq_refl eq_refl)
      as (pr2 & Hp2 & Hk & Hno).
    exists pr2. split; [exact Hp2|]. split; [exact Hk | exact (Hno 0)].
Defined.

(** The same run with the window closed before the timer is due: the
    only signal the process ever receives is the [SIGTERM] of the
    ['closed'] callback. *)
Lemma stop_then_close_sends_no_forceful_kill :
  (run [ ShowExecutionModal "bash" "sleep 5";
         ExecuteCode "sleep 5" "bash" (Some 1) SpawnOk;
         KillExecution (Some 1); WindowClosed 1; Tick 3000; TimerFire 0 ]
       (init Linux)
   ≫= λ st, kill_calls <$> procs st !! 0)
  = Some [SIGTERM].
Proof. vm_compute. reflexivity. Qed.

(** No step removes or replaces a session object. *)
Lemma heap_step_lookup e st l td :
  wf st → heap st !! l = Some td → ∃ td', heap (next e st) !! l = Some td'.
Proof.
  intros Hwf H. pose proof (wf_heap_fresh st Hwf) as Hf.
  step_cases e; lookup_cases; repeat case_decide; eauto.
Qed.

(** ** Completion state *)

(** C1, as stated, fails: a second run on a completed session takes
    [isExecutionComplete] back to false, and its ['close'] takes it to
    true a second time. *)
Lemma completion_is_reset_by_next_run :
  (isExecutionComplete <$> (run completed_once (init Linux) ≫= session 1))
  = Some true
  ∧ (isExecutionComplete
       <$> (run (completed_once ++ [second_run]) (init Linux) ≫= session 1))
    = Some false
  ∧ (isExecutionComplete
       <$> (run (completed_once ++ [second_run; ProcClose 1 (Some 0%Z)])
                (init Linux) ≫= session 1))
    = Some true.
Proof. repeat split; vm_compute; reflexivity. Qed.

(** C1, amended.  In every reachable state and for every session object,
    the result is set exactly when the session is complete, and a complete
    session has no active process.  Across any event the object stays in
    place; a complete session stays complete unless the event is a call of
    [execute-code] on it, which makes it incomplete and clears the result;
    and an incomplete session becomes complete only by the ['close'] of a
    process started on it, which always completes it. *)
Theorem completion_invariant pf st e l td :
  reachable pf st →
  heap st !! l = Some td →
  (isExecutionComplete td = true ↔ is_Some (lastExecutionResult td))
  ∧ (isExecutionComplete td = true → activeProcess td = None)
  ∧ ∃ td', heap (next e st) !! l = Some td'
      ∧ (isExecutionComplete td = true → executes e l st = false →
         isExecutionComplete td' = true)
      ∧ (executes e l st = true →
         isExecutionComplete td' = false ∧ lastExecutionResult td' = None)
      ∧ (isExecutionComplete td = false → isExecutionComplete td' = true →
         closes e l st = true)
      ∧ (closes e l st = true → isExecutionComplete td' = true).
Proof.
  intros Hr H. pose proof (reachable_wf _ _ Hr) as Hwf.
  destruct (wf_complete st Hwf l td H) as [Hiff Hact].
  split; [exact Hiff|]. split; [exact Hact|].
  pose proof (wf_heap_fresh st Hwf) as Hf.
  assert (l ≠ nextTerminalId st) as Hne.
  { intros ->. rewrite Hf in H by lia. done. }
  clear Hiff Hact Hr Hwf Hf.
  unfold executes, closes.
  step_cases e; lookup_cases; repeat case_decide; simplify_eq;
    try (eexists; split; [first [reflexivity | eassumption]|]);
    simpl_fields; repeat split; try done; try congruence;
    try (intros; by apply bool_decide_eq_true).
Qed.

Lemma completion_invariant_witness :
  (isExecutionComplete
     <$> heap (next second_run (exec completed_once (init Linux))) !! 1)
  = Some false.
Proof.
  destruct (completion_invariant Linux (exec completed_once (init Linux))
              second_run 1
              (mkTermData
                 (mkWindow "Terminal Output - python" "print(1)" false false
                           [TerminalOutput Stdout "1"])
                 None (echo "print(1)" ++ "1") true
                 (Some (mkResult "1" "" (Some 0%Z) false)) false)
              (run_reachable Linux completed_once (init Linux) _
                 (reachable_init Linux) eq_refl)
              eq_refl)
    as (_ & _ & td' & Hh & _ & Hex & _).
  rewrite Hh. cbn [fmap option_fmap option_map]. f_equal.
  apply Hex. reflexivity.
Defined.

(** ** The buffer *)

(** C2, as stated, fails: with two runs started on one session, the
    ['close'] of the first marks the session complete and output of the
    second is still appended to the buffer. *)
Lemma buffer_grows_after_completion :
  ((λ td, (isExecutionComplete td, buffer td))
     <$> (run overlapping_runs (init Linux) ≫= session 1))
  = Some (true, echo "sleep 1")
  ∧ ((λ td, (isExecutionComplete td, buffer td))
       <$> (run (overlapping_runs ++ [Data Stdout 1 "x"]) (init Linux)
              ≫= session 1))
    = Some (true, echo "sleep 1" ++ "x").
Proof. split; vm_compute; reflexivity. Qed.

(** C2, amended.  Across any event the buffer of a session object is
    unchanged or extended at its end by one chunk, the text of a data
    event of a process started on that session; so it never shrinks and
    nothing in it is removed or reordered.  When every process started on
    the session has closed, no event the runtime can deliver changes the
    buffer; this is the case for a complete session on which only one
    process was ever started. *)
Theorem buffer_append_only pf st e l td :
  reachable pf st →
  heap st !! l = Some td →
  ∃ td', heap (next e st) !! l = Some td'
    ∧ buffer td' = buffer td ++ appended e l st
    ∧ (String.length (buffer td) ≤ String.length (buffer td'))%nat
    ∧ (enabled e st = true →
       (∀ p pr, procs st !! p = Some pr → termData pr = l → closed pr = true) →
       buffer td' = buffer td)
    ∧ (enabled e st = true →
       isExecutionComplete td = true →
       (∀ p p' pr pr', procs st !! p = Some pr → procs st !! p' = Some pr' →
                       termData pr = l → termData pr' = l → p = p') →
       buffer td' = buffer td).
Proof.
  intros Hr H. pose proof (reachable_wf _ _ Hr) as Hwf.
  assert (∃ td', heap (next e st) !! l = Some td'
                 ∧ buffer td' = buffer td ++ appended e l st)
    as (td' & Hh & Hb).
  { pose proof (wf_heap_fresh st Hwf) as Hf.
    assert (l ≠ nextTerminalId st) as Hne.
    { intros ->. rewrite Hf in H by lia. done. }
    clear Hr Hwf Hf. unfold appended.
    step_cases e; lookup_cases; repeat case_decide; simplify_eq;
      (eexists; split; [first [reflexivity | eassumption]|]);
      simpl_fields; by rewrite ?append_nil_r. }
  assert (enabled e st = true →
          (∀ p pr, procs st !! p = Some pr → termData pr = l → closed pr = true) →
          buffer td' = buffer td) as Hclosed.
  { intros Hen Hall. rewrite Hb. unfold appended.
    destruct e; try apply append_nil_r.
    cbn [enabled] in Hen. unfold is_open in Hen.
    destruct (procs st !! p) as [pr|] eqn:Hp; [|apply append_nil_r].
    case_decide; [|apply append_nil_r].
    rewrite (Hall _ _ Hp) in Hen by done. done. }
  exists td'. split; [done|]. split; [done|]. split; [|split; [done|]].
  - rewrite Hb. clear. induction (buffer td) as [|a b IH]; simpl; lia.
  - intros Hen Hc Huniq. apply Hclosed; [done|].
    destruct (wf_complete st Hwf l td H) as [Hiff _].
    destruct (proj1 Hiff Hc) as [r Hres].
    destruct (wf_result st Hwf l td r H Hres) as (p0 & pr0 & Hp0 & Ht0 & Hc0 & _).
    intros p pr Hp Ht. by rewrite (Huniq p p0 pr pr0 Hp Hp0 Ht Ht0) in Hp;
      simplify_eq.
Qed.

Lemma buffer_append_only_witness :
  (buffer <$> heap (next (Data Stderr 0 "oops")
                      (exec [ ShowExecutionModal "bash" "ls";
                              ExecuteCode "ls" "bash" (Some 1) SpawnOk ]
                            (init Linux))) !! 1)
  = Some (echo "ls" ++ "oops").
Proof.
  destruct (buffer_append_only Linux
              (exec [ ShowExecutionModal "bash" "ls";
                      ExecuteCode "ls" "bash" (Some 1) SpawnOk ] (init Linux))
              (Data Stderr 0 "oops") 1
              (mkTermData (mkWindow "Terminal Output - bash" "ls" false false [])
                          (Some 0) (echo "ls") false None false)
              (run_reachable Linux
                 [ ShowExecutionModal "bash" "ls";
                   ExecuteCode "ls" "bash" (Some 1) SpawnOk ]
                 (init Linux) _ (reachable_init Linux) eq_refl)
              eq_refl)
    as (td' & Hh & Hb & _).
  rewrite Hh. cbn [fmap option_fmap option_map]. f_equal. exact Hb.
Defined.

(** ** Catching up after completion *)




(** ** Input relay *)

Lemma normalize_length text : String.length (normalize text) = String.length text.
Proof.
  unfold normalize. induction text as [|a t IH]; [done|].
  cbn [Str.replace_all]. destruct (Ascii.eqb a Str.CR); simpl; by rewrite IH.
Qed.

Lemma normalize_get text : ∀ n,
  String.get n (normalize text)
  = (λ c, if Ascii.eqb c Str.CR then Str.LF else c) <$> String.get n text.
Proof.
  unfold normalize. induction text as [|a t IH]; intros n; [done|].
  cbn [Str.replace_all].
  destruct (Ascii.eqb a Str.CR) eqn:E; destruct n as [|n]; simpl;
    rewrite ?E; try done; apply IH.
Qed.

(** C8.  In every reachable state, [terminal-input] for a session with an
    active process writes to the input stream of that process the text
    with every carriage return replaced by a line feed and every other
    character unchanged, in order, and changes nothing else; for an
    unknown session or one without active process nothing happens. *)
Theorem terminal_input_spec pf st sessionId text :
  reachable pf st →
  match get sessionId st with
  | Some (_, td) =>
      match activeProcess td with
      | Some p =>
          ∃ pr i, procs st !! p = Some pr ∧ stdin pr = Some i
            ∧ step (TerminalInput sessionId text) st
              = (set_procs
                   (<[p := with_stdin
                             (Some (mkStdin (writable i)
                                            (written i ++ [normalize text])))
                             pr]> (procs st)) st, NoReply)
      | None => step (TerminalInput sessionId text) st = (st, NoReply)
      end
  | None => step (TerminalInput sessionId text) st = (st, NoReply)
  end
  ∧ String.length (normalize text) = String.length text
  ∧ ∀ n, String.get n (normalize text)
         = (λ c, if Ascii.eqb c Str.CR then Str.LF else c)
             <$> String.get n text.
Proof.
  intros Hr. pose proof (reachable_wf _ _ Hr) as Hwf.
  split; [|split; [apply normalize_length | apply normalize_get]].
  cbn [step]. unfold terminal_input.
  destruct (get sessionId st) as [[l td]|] eqn:Hget; [|done].
  destruct (activeProcess td) as [p|] eqn:Ha; [|done].
  apply get_Some in Hget as (sid & _ & _ & Hh).
  destruct (wf_active st Hwf _ _ _ Hh Ha) as [pr Hp].
  destruct (wf_procs st Hwf _ _ Hp) as [[i Hi] _].
  exists pr, i. rewrite Hp, Hi. unfold write. rewrite Hi. done.
Qed.

Lemma terminal_input_spec_witness :
  ∃ pr i,
    procs (exec awaiting_input (init Linux)) !! 0 = Some pr
    ∧ stdin pr = Some i
    ∧ step (TerminalInput (Some 1) (String Str.CR ""))
           (exec awaiting_input (init Linux))
      = (set_procs
           (<[0 := with_stdin
                     (Some (mkStdin (writable i)
                              (written i ++ [normalize (String Str.CR "")])))
                     pr]> (procs (exec awaiting_input (init Linux))))
           (exec awaiting_input (init Linux)), NoReply).
Proof.
  exact (proj1 (terminal_input_spec Linux (exec awaiting_input (init Linux))
                  (Some 1) (String Str.CR "")
                  (run_reachable Linux awaiting_input (init Linux) _
                     (reachable_init Linux) eq_refl))).
Defined.

(** * Further properties of the code *)

(** ** [escapeHtml] *)

Lemma html_entity_cases a :
  (a = "&"%char ∧ html_entity a = Some "&amp;")
  ∨ (a = "<"%char ∧ html_entity a = Some "&lt;")
  ∨ (a = ">"%char ∧ html_entity a = Some "&gt;")
  ∨ (a = DQUOTE ∧ html_entity a = Some "&quot;")
  ∨ (a = Str.QUOTE ∧ html_entity a = Some "&#039;")
  ∨ (html_entity a = None ∧ a ≠ "&"%char ∧ a ≠ "<"%char ∧ a ≠ ">"%char
     ∧ a ≠ DQUOTE ∧ a ≠ Str.QUOTE).
Proof.
  unfold html_entity.
  destruct (Ascii.eqb a "&") eqn:E1; [apply Ascii.eqb_eq in E1; subst; tauto|].
  destruct (Ascii.eqb a "<") eqn:E2; [apply Ascii.eqb_eq in E2; subst; tauto|].
  destruct (Ascii.eqb a ">") eqn:E3; [apply Ascii.eqb_eq in E3; subst; tauto|].
  destruct (Ascii.eqb a DQUOTE) eqn:E4; [apply Ascii.eqb_eq in E4; subst; tauto|].
  destruct (Ascii.eqb a Str.QUOTE) eqn:E5; [apply Ascii.eqb_eq in E5; subst; tauto|].
  apply Ascii.eqb_neq in E1, E2, E3, E4, E5. tauto.
Qed.

Lemma escapeHtml_cons a r :
  escapeHtml (String a r)
  = match html_entity a with
    | Some e => e ++ escapeHtml r
    | None => String a (escapeHtml r)
    end.
Proof. reflexivity. Qed.

(** X1.  The text [escapeHtml] returns contains no less-than sign, no
    greater-than sign, no double quote and no single quote, whatever the
    input. *)
Theorem escapeHtml_no_markup text c :
  In c (list_ascii_of_string (escapeHtml text)) →
  c ≠ "<"%char ∧ c ≠ ">"%char ∧ c ≠ DQUOTE ∧ c ≠ Str.QUOTE.
Proof.
  induction text as [|a r IH]; [done|].
  rewrite escapeHtml_cons.
  destruct (html_entity_cases a) as [[_ ->]|[[_ ->]|[[_ ->]|[[_ ->]|[[_ ->]|(-> & Ha)]]]]];
    cbn [append list_ascii_of_string In];
    intros H; repeat (destruct H as [<-|H]; [by repeat split|]); try by apply IH.
  destruct H as [<-|H]; [tauto | by apply IH].
Qed.

Lemma escapeHtml_no_markup_witness :
  "&"%char ≠ "<"%char ∧ "&"%char ≠ ">"%char ∧ "&"%char ≠ DQUOTE
  ∧ "&"%char ≠ Str.QUOTE.
Proof.
  apply (escapeHtml_no_markup "<b>" "&"%char). cbn. by left.
Defined.

(** X2.  [escapeHtml] is injective: two texts with the same escaped form
    are the same text, so the escaped form can be decoded without
    ambiguity. *)
Theorem escapeHtml_injective a : ∀ b, escapeHtml a = escapeHtml b → a = b.
Proof.
  induction a as [|x a IH]; intros [|y b]; rewrite ?escapeHtml_cons.
  - done.
  - destruct (html_entity_cases y) as [[_ ->]|[[_ ->]|[[_ ->]|[[_ ->]|[[_ ->]|(-> & _)]]]]]; done.
  - destruct (html_entity_cases x) as [[_ ->]|[[_ ->]|[[_ ->]|[[_ ->]|[[_ ->]|(-> & _)]]]]]; done.
  - destruct (html_entity_cases x) as [[-> ->]|[[-> ->]|[[-> ->]|[[-> ->]|[[-> ->]|(-> & Hx)]]]]];
    destruct (html_entity_cases y) as [[-> ->]|[[-> ->]|[[-> ->]|[[-> ->]|[[-> ->]|(-> & Hy)]]]]];
      cbn [append]; intros H; simplify_eq; try (f_equal; by apply IH);
      try tauto.
Qed.

Lemma escapeHtml_injective_witness : "a<b & c" = "a<b & c".
Proof. exact (escapeHtml_injective "a<b & c" "a<b & c" eq_refl). Defined.

(** X3.  [escapeHtml] works piece by piece: escaping a concatenation is
    concatenating the escaped pieces. *)
Theorem escapeHtml_app a b : escapeHtml (a ++ b) = escapeHtml a ++ escapeHtml b.
Proof.
  induction a as [|x a IH]; [done|].
  change (String x a ++ b) with (String x (a ++ b)).
  rewrite !escapeHtml_cons, IH.
  destruct (html_entity x); [by rewrite append_assoc | done].
Qed.

(** ** The window-open handler *)

Lemma prefix_app sub : ∀ s t,
  String.prefix sub s = true → String.prefix sub (s ++ t) = true.
Proof.
  induction sub as [|a sub IH]; intros s t; [by destruct (s ++ t)|].
  destruct s as [|b s]; simpl; [done|].
  destruct (ascii_dec a b); [apply IH | done].
Qed.

Lemma includes_unfold sub s :
  includes sub s
  = (String.prefix sub s
     || match s with EmptyString => false | String _ r => includes sub r end).
Proof. by destruct s. Qed.

Lemma includes_app_r sub s t :
  includes sub s = true → includes sub (s ++ t) = true.
Proof.
  induction s as [|a s IH]; rewrite (includes_unfold sub (_ ++ t)),
    (includes_unfold sub).
  - rewrite orb_false_r. intros H. by rewrite (prefix_app _ _ t H).
  - intros H. apply orb_true_iff in H as [H|H].
    + by rewrite (prefix_app _ _ t H).
    + change (String a s ++ t) with (String a (s ++ t)). cbn iota.
      rewrite (IH H). apply orb_true_r.
Qed.

Lemma includes_app_l sub s t :
  includes sub s = true → includes sub (t ++ s) = true.
Proof.
  intros H. induction t as [|a t IH]; [done|].
  change (String a t ++ s) with (String a (t ++ s)).
  rewrite includes_unfold, IH. apply orb_true_r.
Qed.

Lemma includes_context sub s pre post :
  includes sub s = true → includes sub (pre ++ s ++ post) = true.
Proof. intros H. by apply includes_app_l, includes_app_r. Qed.

Lemma prefix_decompose sub : ∀ s,
  String.prefix sub s = true ↔ ∃ post, s = sub ++ post.
Proof.
  induction sub as [|a sub IH]; intros s.
  - split; [intros _; by exists s | by destruct s].
  - destruct s as [|b s]; simpl.
    + split; [done | by intros [post ?]].
    + destruct (ascii_dec a b) as [->|Hne].
      * rewrite IH. split; intros [post H]; exists post; simpl in *; congruence.
      * split; [done | intros [post H]; simpl in H; congruence].
Qed.

Lemma includes_decompose sub s :
  includes sub s = true ↔ ∃ pre post, s = pre ++ sub ++ post.
Proof.
  split.
  - induction s as [|a s IH]; rewrite includes_unfold.
    + rewrite orb_false_r. intros H.
      apply prefix_decompose in H as [post H]. by exists "", post.
    + intros H. apply orb_true_iff in H as [H|H].
      * apply prefix_decompose in H as [post H]. by exists "", post.
      * destruct (IH H) as (pre & post & ->).
        exists (String a pre), post. reflexivity.
  - intros (pre & post & ->). apply includes_context.
    rewrite includes_unfold. apply orb_true_iff. left.
    apply prefix_decompose. exists "". by rewrite append_nil_r.
Qed.

(** X4.  The window-open handler allows a URL exactly when one of the
    three texts [accounts.google.com], [deepseek.com] and
    [google.com/o/oauth] occurs somewhere in it, at any position (host,
    path or query); every other URL, and only those, is denied and handed
    unchanged to [shell.openExternal]. *)
Theorem window_open_handler_spec url :
  (window_open_handler url = (Allow, None)
   ↔ ∃ marker pre post,
       In marker ["accounts.google.com"; "deepseek.com"; "google.com/o/oauth"]
       ∧ url = pre ++ marker ++ post)
  ∧ (window_open_handler url = (Deny, Some url)
     ↔ ∀ marker pre post,
         In marker ["accounts.google.com"; "deepseek.com"; "google.com/o/oauth"]
         → url ≠ pre ++ marker ++ post).
Proof.
  assert ((∃ marker pre post,
              In marker ["accounts.google.com"; "deepseek.com";
                         "google.com/o/oauth"]
              ∧ url = pre ++ marker ++ post)
          ↔ allowed_url url = true) as Hallowed.
  { unfold allowed_url. split.
    - intros (marker & pre & post & Hin & ->).
      assert (includes marker (pre ++ marker ++ post) = true) as H
        by (apply includes_decompose; eauto).
      cbn [In] in Hin. destruct Hin as [<-|[<-|[<-|[]]]];
        rewrite H, ?orb_true_r; done.
    - intros H. apply orb_true_iff in H as [H|H];
        [apply orb_true_iff in H as [H|H]|];
        apply includes_decompose in H as (pre & post & ->);
        eexists _, pre, post; (split; [|reflexivity]); cbn [In]; tauto. }
  unfold window_open_handler. split.
  - rewrite Hallowed. by destruct (allowed_url url).
  - split.
    + intros H marker pre post Hin Heq.
      assert (allowed_url url = true) as Ha by (apply Hallowed; eauto).
      by rewrite Ha in H.
    + intros Hno. destruct (allowed_url url) eqn:E; [|done].
      destruct (proj2 Hallowed eq_refl) as (marker & pre & post & Hin & Heq).
      by destruct (Hno marker pre post Hin).
Qed.

Lemma window_open_handler_spec_witness :
  window_open_handler "https://accounts.google.com/signin" = (Allow, None)
  ∧ window_open_handler "https://example.org/?next=deepseek.com" = (Allow, None)
  ∧ window_open_handler "https://www.google.com/o/oauth2/auth" = (Allow, None)
  ∧ window_open_handler "https://example.org/"
    = (Deny, Some "https://example.org/").
Proof.
  split; [|split; [|split]].
  - apply (proj1 (window_open_handler_spec _)).
    exists "accounts.google.com", "https://", "/signin".
    split; [cbn; tauto | reflexivity].
  - apply (proj1 (window_open_handler_spec _)).
    exists "deepseek.com", "https://example.org/?next=", "".
    split; [cbn; tauto | reflexivity].
  - apply (proj1 (window_open_handler_spec _)).
    exists "google.com/o/oauth", "https://www.", "2/auth".
    split; [cbn; tauto | reflexivity].
  - apply (proj2 (window_open_handler_spec _)).
    intros marker pre post Hin Heq.
    assert (includes marker "https://example.org/" = true) as H
      by (apply includes_decompose; eauto).
    cbn [In] in Hin. destruct Hin as [<-|[<-|[<-|[]]]]; discriminate H.
Defined.

(** ** Run buttons and the registry *)

Lemma own_lookup_keys tbl k :
  is_Some (own_lookup tbl k) ↔ existsb (String.eqb k) (map fst tbl) = true.
Proof.
  induction tbl as [|[k' v] tbl IH]; simpl.
  - split; [by intros [? ?] | done].
  - destruct (String.eqb k k'); simpl; [|done]. split; [done | by eauto].
Qed.

Lemma offered_spawns language st code sessionId l td :
  offers_run language = true →
  get sessionId st = Some (l, td) →
  (execute_code code language sessionId SpawnOk st).2 = ReplyPending (nextProc st).
Proof.
  intros Ho Hget. unfold offers_run in Ho.
  apply (own_lookup_keys LANGUAGE_COMMANDS) in Ho as [c0 Hown].
  destruct (supported_config (platform st) _ _ Hown) as (c & a & Hcfg & _).
  unfold execute_code.
  rewrite Hget, (own_lookup_supported _ _ Hown), Hcfg.
  cbn [args cmd]. unfold spawn_invocation. by destruct (platform st).
Qed.

(** X5.  The list of languages for which the page offers a Run button and
    the keys of the registry of [execute-code] are the same set, up to the
    case of the tag: a Run button is offered exactly for the registered
    languages, and a run started from one on an existing session is never
    refused as unsupported: it starts a process when [spawn] returns. *)
Theorem run_button_languages_are_supported language :
  (offers_run language = true
   ↔ is_Some (own_lookup LANGUAGE_COMMANDS (Str.toLowerCase language)))
  ∧ (offers_run language = true →
     ∀ st code sessionId l td,
       get sessionId st = Some (l, td) →
       (execute_code code language sessionId SpawnOk st).2
       = ReplyPending (nextProc st)).
Proof.
  split.
  - unfold offers_run. by rewrite own_lookup_keys.
  - intros Ho st code sessionId l td Hget.
    by apply (offered_spawns language st code sessionId l td).
Qed.

Lemma run_button_languages_are_supported_witness :
  (execute_code "ls" "Bash" (Some 1) SpawnOk
     (next (ShowExecutionModal "Bash" "ls") (init Win32))).2
  = ReplyPending 0.
Proof.
  exact (proj2 (run_button_languages_are_supported "Bash") eq_refl
           (next (ShowExecutionModal "Bash" "ls") (init Win32)) "ls" (Some 1) 1
           (mkTermData (mkWindow "Terminal Output - Bash" "ls" false false [])
                       None (echo "ls") false None false)
           eq_refl).
Defined.

(** ** The page of a terminal window *)

Lemma deliver_all_app blank (ms ms' : list PageMsg) pg :
  deliver_all blank (ms ++ ms')%list pg = deliver_all blank ms' (deliver_all blank ms pg).
Proof. revert pg. induction ms as [|m ms IH]; intros pg; [done|]. apply IH. Qed.

(** A message that leads to no first completion only shows its text. *)
Lemma deliver_plain blank m pg :
  completion_of m = None ∨ data_completed pg = true →
  term (deliver blank m pg) = (term pg ++ shown m)%list
  ∧ data_completed (deliver blank m pg) = data_completed pg
  ∧ killBtn (deliver blank m pg) = killBtn pg
  ∧ copyBtn (deliver blank m pg) = copyBtn pg
  ∧ cursorBlink (deliver blank m pg) = cursorBlink pg.
Proof.
  intros H. destruct m as [[d|]|[ty data|r]]; cbn [deliver shown completion_of] in *;
    unfold on_buffer, on_output, handleCompletion.
  - destruct (String.eqb (bi_buffer d) ""), (isComplete d) eqn:Hc;
      cbn [data_completed term killBtn copyBtn cursorBlink];
      destruct H as [H|H]; try done; rewrite ?H, ?app_nil_r; done.
  - by rewrite app_nil_r.
  - done.
  - destruct H as [H|H]; [done|]. by rewrite H, app_nil_r.
Qed.

Lemma deliver_all_plain blank ms : ∀ pg,
  Forall (λ m, completion_of m = None) ms ∨ data_completed pg = true →
  term (deliver_all blank ms pg) = (term pg ++ flat_map shown ms)%list
  ∧ data_completed (deliver_all blank ms pg) = data_completed pg
  ∧ killBtn (deliver_all blank ms pg) = killBtn pg
  ∧ copyBtn (deliver_all blank ms pg) = copyBtn pg
  ∧ cursorBlink (deliver_all blank ms pg) = cursorBlink pg.
Proof.
  induction ms as [|m ms IH]; intros pg H.
  - cbn. by rewrite app_nil_r.
  - assert (completion_of m = None ∨ data_completed pg = true) as Hm.
    { destruct H as [H|H]; [left; by inversion H | by right]. }
    destruct (deliver_plain blank m pg Hm) as (Ht & Hd & Hk & Hc & Hb).
    cbn [deliver_all flat_map].
    destruct (IH (deliver blank m pg)) as (Ht' & Hd' & Hk' & Hc' & Hb').
    { destruct H as [H|H]; [left; by inversion H | right; congruence]. }
    rewrite Ht', Hd', Hk', Hc', Hb', Ht, Hd, Hk, Hc, Hb.
    by rewrite <- app_assoc.
Qed.

Lemma deliver_first_completion blank c v pg :
  data_completed pg = false → completion_of c = Some (Some v) →
  term (deliver blank c pg) = (term pg ++ shown c ++ [exitMsg v; hide_cursor])%list
  ∧ data_completed (deliver blank c pg) = true
  ∧ killBtn (deliver blank c pg) = false
  ∧ copyBtn (deliver blank c pg) = true
  ∧ cursorBlink (deliver blank c pg) = false.
Proof.
  intros Hd Hc. destruct c as [[d|]|[ty data|r]]; cbn [deliver shown completion_of] in *;
    try done; unfold on_buffer, handleCompletion.
  - destruct (isComplete d); [|done]. injection Hc as Hc. rewrite Hc.
    destruct (String.eqb (bi_buffer d) "");
      cbn [data_completed term killBtn copyBtn cursorBlink]; rewrite Hd;
      cbn [data_completed term killBtn copyBtn cursorBlink];
      by rewrite <- ?app_assoc.
  - injection Hc as ->. rewrite Hd. done.
Qed.

(** X6.  However the completion reaches the page of a terminal window
    (with the catch-up reply, with a [terminal-complete] message, or with
    both, and any number of times), the exit-code line and the
    hide-cursor sequence are written once, for the first completion that
    arrives, right after the output that message shows; every other
    message only shows its output.  From then on the Stop button is
    hidden, the Copy button shown and the cursor no longer blinks. *)
Theorem exit_line_written_once blank m1 c v m2 pg :
  data_completed pg = false →
  Forall (λ m, completion_of m = None) m1 →
  completion_of c = Some (Some v) →
  term (deliver_all blank (m1 ++ c :: m2)%list pg)
  = (term pg ++ flat_map shown m1 ++ shown c ++ [exitMsg v; hide_cursor]
      ++ flat_map shown m2)%list
  ∧ data_completed (deliver_all blank (m1 ++ c :: m2)%list pg) = true
  ∧ killBtn (deliver_all blank (m1 ++ c :: m2)%list pg) = false
  ∧ copyBtn (deliver_all blank (m1 ++ c :: m2)%list pg) = true
  ∧ cursorBlink (deliver_all blank (m1 ++ c :: m2)%list pg) = false.
Proof.
  intros Hd H1 Hc. rewrite deliver_all_app. cbn [deliver_all].
  destruct (deliver_all_plain blank m1 pg (or_introl H1)) as (Ht1 & Hd1 & _).
  destruct (deliver_first_completion blank c v (deliver_all blank m1 pg))
    as (Ht & Hd' & Hk & Hcp & Hb); [congruence | done |].
  destruct (deliver_all_plain blank m2 (deliver blank c (deliver_all blank m1 pg))
              (or_intror Hd')) as (Ht2 & Hd2 & Hk2 & Hc2 & Hb2).
  rewrite Ht2, Hd2, Hk2, Hc2, Hb2, Ht, Ht1, Hd', Hk, Hcp, Hb.
  by rewrite <- !app_assoc.
Qed.

Lemma exit_line_written_once_witness :
  term (deliver_all (λ _, false)
          [ Pushed (TerminalOutput Stdout "hi");
            BufferReply (Some (mkBufferInfo "$ x" true
                                 (Some (mkResult "hi" "" (Some 0%Z) false))));
            Pushed (TerminalCompleteMsg
                      (Completed (mkResult "hi" "" (Some 0%Z) false))) ]
          new_page)
  = [ "hi"; "$ x";
      exitMsg (Completed (mkResult "hi" "" (Some 0%Z) false)); hide_cursor ].
Proof.
  apply (exit_line_written_once (λ _, false)
           [Pushed (TerminalOutput Stdout "hi")]
           (BufferReply (Some (mkBufferInfo "$ x" true
                           (Some (mkResult "hi" "" (Some 0%Z) false)))))
           (Completed (mkResult "hi" "" (Some 0%Z) false))
           [Pushed (TerminalCompleteMsg
                      (Completed (mkResult "hi" "" (Some 0%Z) false)))]
           new_page).
  - reflexivity.
  - repeat constructor.
  - reflexivity.
Defined.

Lemma fullOutput_pushed blank ms : ∀ pg,
  fullOutput (deliver_all blank (map Pushed ms) pg) = fullOutput pg ++ outputs ms.
Proof.
  induction ms as [|[ty d|r] ms IH]; intros pg; cbn [map deliver_all outputs].
  - by rewrite append_nil_r.
  - rewrite IH. cbn [deliver on_output fullOutput]. by rewrite append_assoc.
  - rewrite IH. cbn [deliver]. unfold handleCompletion.
    by destruct (data_completed pg).
Qed.

(** X7.  Once the catch-up reply with a non-empty buffer has been
    handled, [fullOutput], the text the Send-to-Chat and Copy buttons work
    on, is that buffer followed by the output received after it, whatever
    was received before the reply. *)
Theorem fullOutput_after_catch_up blank pre d ms pg :
  bi_buffer d ≠ "" →
  fullOutput (deliver_all blank (pre ++ BufferReply (Some d) :: map Pushed ms)%list pg)
  = bi_buffer d ++ outputs ms.
Proof.
  intros Hne. rewrite deliver_all_app. cbn [deliver_all].
  rewrite fullOutput_pushed. f_equal.
  cbn [deliver]. unfold on_buffer.
  apply String.eqb_neq in Hne. rewrite Hne.
  destruct (isComplete d); [|done].
  unfold handleCompletion. cbn [data_completed fullOutput].
  destruct (data_completed (deliver_all blank pre pg)); [done|].
  by destruct (Completed <$> result d).
Qed.

Lemma fullOutput_after_catch_up_witness :
  fullOutput (deliver_all (λ _, false)
                ([Pushed (TerminalOutput Stdout "early")]
                 ++ BufferReply (Some (mkBufferInfo "$ x early" false None))
                 :: map Pushed [TerminalOutput Stderr " late"])%list
                new_page)
  = "$ x early" ++ outputs [TerminalOutput Stderr " late"].
Proof.
  apply (fullOutput_after_catch_up (λ _, false)
           [Pushed (TerminalOutput Stdout "early")]
           (mkBufferInfo "$ x early" false None)
           [TerminalOutput Stderr " late"] new_page).
  discriminate.
Defined.

(** ** Session ids *)

Lemma nextTerminalId_step e st :
  (nextTerminalId st ≤ nextTerminalId (next e st))%nat.
Proof. step_cases e; lia. Qed.

Lemma nextTerminalId_exec evs : ∀ st,
  (nextTerminalId st ≤ nextTerminalId (exec evs st))%nat.
Proof.
  induction evs as [|e evs IH]; intros st; cbn [exec]; [lia|].
  pose proof (nextTerminalId_step e st). pose proof (IH (next e st)). lia.
Qed.

(** X8.  [show-execution-modal] answers with the current value of the
    counter, which is not the id of any registered session and is larger
    than every id in use; whatever happens afterwards (closing windows
    included), a later call answers with a strictly larger id, so no id
    is issued twice. *)
Theorem session_ids_are_fresh_and_increasing pf st language code evs language' code' :
  reachable pf st →
  (show_execution_modal language code st).2 = ReplySession (nextTerminalId st)
  ∧ get (Some (nextTerminalId st)) st = None
  ∧ (∀ sid, is_Some (terminals st !! sid) → (sid < nextTerminalId st)%nat)
  ∧ (show_execution_modal language' code'
       (exec evs (show_execution_modal language code st).1)).2
    = ReplySession
        (nextTerminalId (exec evs (show_execution_modal language code st).1))
  ∧ (nextTerminalId st
     < nextTerminalId (exec evs (show_execution_modal language code st).1))%nat.
Proof.
  intros Hr. pose proof (reachable_wf _ _ Hr) as Hwf.
  assert (∀ sid, is_Some (terminals st !! sid) → (sid < nextTerminalId st)%nat)
    as Hlt.
  { intros sid [l Hl].
    destruct (wf_terminals st Hwf _ _ Hl) as (-> & td & Hh & _).
    destruct (decide (nextTerminalId st ≤ sid)%nat) as [Hle|]; [|lia].
    rewrite (wf_heap_fresh st Hwf _ Hle) in Hh. done. }
  split; [done|]. split; [|split; [done|split; [done|]]].
  - unfold get. cbn.
    destruct (terminals st !! nextTerminalId st) as [l|] eqn:E; [|done].
    specialize (Hlt _ (ex_intro _ _ E)). lia.
  - pose proof (nextTerminalId_exec evs (show_execution_modal language code st).1)
      as H.
    cbn [show_execution_modal fst nextTerminalId] in *. lia.
Qed.

Lemma session_ids_are_fresh_and_increasing_witness :
  (show_execution_modal "sh" "b"
     (exec [WindowClosed 1]
        (show_execution_modal "sh" "a" (init Linux)).1)).2
  = ReplySession 2.
Proof.
  exact (proj1 (proj2 (proj2 (proj2
           (session_ids_are_fresh_and_increasing Linux (init Linux) "sh" "a"
              [WindowClosed 1] "sh" "b" (reachable_init Linux)))))).
Defined.

(** ** Closing a window *)

Lemma gone_step e st sid :
  terminals st !! sid = None → (sid < nextTerminalId st)%nat →
  terminals (next e st) !! sid = None ∧ (sid < nextTerminalId (next e st))%nat.
Proof.
  intros Hn Hlt.
  step_cases e; split; try lia; try done;
    rewrite ?lookup_delete_None; rewrite ?lookup_insert_ne by lia; auto.
Qed.

Lemma gone_exec evs : ∀ st sid,
  terminals st !! sid = None → (sid < nextTerminalId st)%nat →
  terminals (exec evs st) !! sid = None.
Proof.
  induction evs as [|e evs IH]; intros st sid Hn Hlt; [done|].
  destruct (gone_step e st sid Hn Hlt). cbn [exec]. by apply IH.
Qed.

Lemma get_None_terminals sid st :
  terminals st !! sid = None → get (Some sid) st = None.
Proof. unfold get. cbn. by intros ->. Qed.

(** X9.  When the window of a session is closed, the active process of
    the session, if any, is sent [SIGTERM] (nothing is signalled when
    there is none), and the session is removed for good: after any
    further events the catch-up query answers [null] and [execute-code]
    answers with the error [Session not found], changing nothing. *)
Theorem closed_session_is_gone pf st sid evs :
  reachable pf st →
  enabled (WindowClosed sid) st = true →
  (∀ l td p pr,
      get (Some sid) st = Some (l, td) → activeProcess td = Some p →
      procs st !! p = Some pr →
      procs (next (WindowClosed sid) st) !! p = Some (kill SIGTERM pr))
  ∧ (∀ l td, get (Some sid) st = Some (l, td) → activeProcess td = None →
      procs (next (WindowClosed sid) st) = procs st)
  ∧ get (Some sid) (exec evs (next (WindowClosed sid) st)) = None
  ∧ get_terminal_buffer (Some sid) (exec evs (next (WindowClosed sid) st)) = None
  ∧ ∀ code language o,
      execute_code code language (Some sid) o
        (exec evs (next (WindowClosed sid) st))
      = (exec evs (next (WindowClosed sid) st),
         ReplyExec (Error "Session not found")).
Proof.
  intros Hr Hen. pose proof (reachable_wf _ _ Hr) as Hwf.
  assert (get (Some sid) (exec evs (next (WindowClosed sid) st)) = None) as Hgone.
  { apply get_None_terminals, gone_exec.
    - unfold next. cbn [step fst]. unfold on_closed.
      cbn [terminals set_terminals]. apply lookup_delete_eq.
    - cbn [enabled] in Hen.
      destruct (heap st !! sid) as [td|] eqn:Hh; [|done].
      pose proof (nextTerminalId_step (WindowClosed sid) st).
      destruct (decide (nextTerminalId st ≤ sid)%nat) as [Hle|]; [|lia].
      rewrite (wf_heap_fresh st Hwf _ Hle) in Hh. done. }
  split; [|split; [|split; [done|split]]].
  - intros l td p pr Hget Ha Hp.
    apply get_Some in Hget as (? & [= <-] & Ht & Hh).
    destruct (wf_terminals st Hwf _ _ Ht) as (-> & _).
    unfold next. cbn [step fst]. unfold on_closed, destroy_window, get.
    rewrite Hh. cbn. rewrite Ht. cbn. rewrite lookup_insert_eq. cbn.
    rewrite Ha. unfold signal. cbn. rewrite Hp. cbn. by rewrite lookup_insert_eq.
  - intros l td Hget Ha.
    apply get_Some in Hget as (? & [= <-] & Ht & Hh).
    destruct (wf_terminals st Hwf _ _ Ht) as (-> & _).
    unfold next. cbn [step fst]. unfold on_closed, destroy_window, get.
    rewrite Hh. cbn. rewrite Ht. cbn. rewrite lookup_insert_eq. cbn.
    by rewrite Ha.
  - unfold get_terminal_buffer. by rewrite Hgone.
  - intros. unfold execute_code. by rewrite Hgone.
Qed.

Lemma closed_session_is_gone_witness :
  procs (next (WindowClosed 1)
           (exec [ ShowExecutionModal "bash" "sleep 5";
                   ExecuteCode "sleep 5" "bash" (Some 1) SpawnOk ] (init Linux)))
    !! 0
  = Some (kill SIGTERM
            (spawn 1 "script" ["-qfec"; "bash -c 'sleep 5'"; "/dev/null"] false)).
Proof.
  destruct (closed_session_is_gone Linux
              (exec [ ShowExecutionModal "bash" "sleep 5";
                      ExecuteCode "sleep 5" "bash" (Some 1) SpawnOk ] (init Linux))
              1 []
              (run_reachable Linux
                 [ ShowExecutionModal "bash" "sleep 5";
                   ExecuteCode "sleep 5" "bash" (Some 1) SpawnOk ]
                 (init Linux) _ (reachable_init Linux) eq_refl)
              eq_refl) as (H & _).
  exact (H 1 (mkTermData
                (mkWindow "Terminal Output - bash" "sleep 5" false false [])
                (Some 0) (echo "sleep 5") false None false)
           0 (spawn 1 "script" ["-qfec"; "bash -c 'sleep 5'"; "/dev/null"] false)
           eq_refl eq_refl eq_refl).
Defined.

(** ** What a process accumulates *)

Lemma chunks_cons ty p e evs :
  chunks ty p (e :: evs) = chunks ty p [e] ++ chunks ty p evs.
Proof.
  destruct e; cbn [chunks]; try done.
  case_bool_decide; [by rewrite append_nil_r|done].
Qed.

Lemma proc_track e st p pr :
  wf st → procs st !! p = Some pr →
  ∃ pr', procs (next e st) !! p = Some pr'
    ∧ termData pr' = termData pr
    ∧ stdout pr' = stdout pr ++ chunks Stdout p [e]
    ∧ stderr pr' = stderr pr ++ chunks Stderr p [e].
Proof.
  intros Hwf Hp. pose proof (wf_proc_fresh st Hwf) as Hf.
  assert (p ≠ nextProc st) as Hne.
  { intros ->. rewrite Hf in Hp by lia. done. }
  clear Hwf Hf.
  step_cases e; lookup_cases; repeat case_decide; simplify_eq;
    (eexists; split; [first [reflexivity | eassumption]|]); simpl_fields;
    cbn [chunks]; repeat case_bool_decide; rewrite ?append_nil_r;
    try done; intuition congruence.
Qed.

Lemma proc_track_run pf evs : ∀ st st' p pr,
  reachable pf st → run evs st = Some st' → procs st !! p = Some pr →
  reachable pf st'
  ∧ ∃ pr', procs st' !! p = Some pr'
      ∧ termData pr' = termData pr
      ∧ stdout pr' = stdout pr ++ chunks Stdout p evs
      ∧ stderr pr' = stderr pr ++ chunks Stderr p evs.
Proof.
  induction evs as [|e evs IH]; intros st st' p pr Hr Hrun Hp; cbn [run] in Hrun.
  - injection Hrun as <-. split; [done|]. exists pr.
    cbn [chunks]. by rewrite !append_nil_r.
  - destruct (enabled e st) eqn:He; [|done].
    destruct (proc_track e st p pr (reachable_wf _ _ Hr) Hp)
      as (pr1 & Hp1 & Ht1 & Ho1 & He1).
    destruct (IH _ _ p pr1 (reachable_step _ _ _ Hr He) Hrun Hp1)
      as (Hr' & pr' & Hp' & Ht' & Ho' & He').
    split; [done|]. exists pr'. split; [done|].
    rewrite Ht', Ho', He', Ht1, Ho1, He1, !append_assoc.
    by rewrite <- !chunks_cons.
Qed.

(** X10.  The completion record stored at the ['close'] of a process
    holds everything the process wrote: its [stdout] is the concatenation,
    in order, of all the chunks of standard output emitted since the
    process was started, its [stderr] that of the chunks of standard
    error, and its [exitCode] the code of the ['close']; the session is
    then complete and has no active process. *)
Theorem completion_record_accumulates pf st st' p pr evs exitCode :
  reachable pf st →
  procs st !! p = Some pr →
  run evs st = Some st' →
  ∃ td' w,
    heap (next (ProcClose p exitCode) st') !! termData pr = Some td'
    ∧ lastExecutionResult td'
      = Some (mkResult (stdout pr ++ chunks Stdout p evs)
                       (stderr pr ++ chunks Stderr p evs) exitCode w)
    ∧ wasInterrupted td' = w
    ∧ isExecutionComplete td' = true
    ∧ activeProcess td' = None.
Proof.
  intros Hr Hp Hrun.
  destruct (proc_track_run pf evs st st' p pr Hr Hrun Hp)
    as (Hr' & pr' & Hp' & Ht' & Ho' & He').
  destruct (wf_procs st' (reachable_wf _ _ Hr') _ _ Hp') as [_ [td Htd]].
  exists (mkTermData (window td) None (buffer td) true
            (Some (mkResult (stdout pr') (stderr pr') exitCode (wasInterrupted td)))
            (wasInterrupted td)), (wasInterrupted td).
  unfold next. cbn [step fst]. unfold mark_closed. rewrite Hp'.
  unfold on_close. cbn [procs store_proc set_procs heap].
  rewrite lookup_insert_eq. cbn [termData with_closed with_handle stdout stderr].
  rewrite Htd. cbn [heap store set_heap store_proc set_procs].
  rewrite <- Ht', lookup_insert_eq, Ho', He'. done.
Qed.

Lemma completion_record_accumulates_witness :
  ∃ td' w,
    heap (next (ProcClose 0 (Some 1%Z))
            (exec [ Data Stdout 0 "a"; Data Stderr 0 "e"; Data Stdout 0 "b" ]
               (exec [ ShowExecutionModal "sh" "x";
                       ExecuteCode "x" "sh" (Some 1) SpawnOk ] (init Linux))))
      !! 1 = Some td'
    ∧ lastExecutionResult td' = Some (mkResult "ab" "e" (Some 1%Z) w)
    ∧ wasInterrupted td' = w
    ∧ isExecutionComplete td' = true
    ∧ activeProcess td' = None.
Proof.
  exact (completion_record_accumulates Linux
           (exec [ ShowExecutionModal "sh" "x";
                   ExecuteCode "x" "sh" (Some 1) SpawnOk ] (init Linux))
           _ 0 (spawn 1 "script" ["-qfec"; "sh -c 'x'"; "/dev/null"] false)
           [ Data Stdout 0 "a"; Data Stderr 0 "e"; Data Stdout 0 "b" ]
           (Some 1%Z)
           (run_reachable Linux
              [ ShowExecutionModal "sh" "x";
                ExecuteCode "x" "sh" (Some 1) SpawnOk ]
              (init Linux) _ (reachable_init Linux) eq_refl)
           eq_refl eq_refl).
Defined.

(** ** The interrupt flag *)

Lemma owner_step e st :
  wf st → active_owner st → active_owner (next e st).
Proof.
  intros Hwf IH l td p H Ha. unfold active_owner in IH.
  pose proof (wf_proc_fresh st Hwf) as Hf.
  assert (∀ l td p, heap st !! l = Some td → activeProcess td = Some p →
            p ≠ nextProc st) as Hne.
  { intros l0 td0 p0 Hh0 Ha0 ->. destruct (IH _ _ _ Hh0 Ha0) as (pr & Hp & _).
    rewrite Hf in Hp by lia. done. }
  clear Hwf Hf.
  step_cases e; split_insert; simplify_eq; simpl_fields;
    try (by eapply IH);
    try (match goal with
         | Hh : heap st !! _ = Some ?t, Hx : activeProcess ?t = Some _ |- _ =>
             pose proof (Hne _ _ _ Hh Hx);
             destruct (IH _ _ _ Hh Hx) as (pr' & Hp' & Ht')
         end;
         lookup_cases; repeat case_decide; simplify_eq;
         eexists; (split; [first [reflexivity | eassumption]|]);
         simpl_fields; by eauto).
  simplify_eq. eexists. split; [apply lookup_insert_eq | done].
Qed.

Lemma reachable_owner pf st : reachable pf st → active_owner st.
Proof.
  induction 1 as [|st e Hr IH He].
  - intros l td p H. cbn [init heap] in H. by rewrite lookup_empty in H.
  - by apply owner_step; [apply (reachable_wf pf)|].
Qed.

(** The flag of a session stays set, and its processes stay its own, as
    long as no run is started on it. *)
Lemma flag_step e st sid td p pr :
  wf st →
  heap st !! sid = Some td → wasInterrupted td = true →
  procs st !! p = Some pr → termData pr = sid →
  runs_on sid e = false →
  ∃ td' pr', heap (next e st) !! sid = Some td' ∧ wasInterrupted td' = true
    ∧ procs (next e st) !! p = Some pr' ∧ termData pr' = sid.
Proof.
  intros Hwf Hh Hw Hp Htd Hno.
  pose proof (wf_proc_fresh st Hwf) as Hf.
  pose proof (wf_heap_fresh st Hwf) as Hhf.
  assert (p ≠ nextProc st) as Hne.
  { intros ->. rewrite Hf in Hp by lia. done. }
  assert (sid ≠ nextTerminalId st) as Hne'.
  { intros ->. rewrite Hhf in Hh by lia. done. }
  assert (∀ x l, terminals st !! x = Some l → l = x) as Hid.
  { intros x l Hx. by destruct (wf_terminals st Hwf _ _ Hx). }
  clear Hwf Hf Hhf. unfold runs_on in Hno.
  step_cases e;
    repeat match goal with
    | Hx : terminals st !! _ = Some _ |- _ => apply Hid in Hx as ?; clear Hx
    end; simplify_eq;
    try (case_bool_decide; [done|]);
    lookup_cases; repeat case_decide; simplify_eq;
    (eexists; eexists; split; [first [reflexivity | eassumption]|]);
    simpl_fields; (split; [congruence|]);
    (split; [first [reflexivity | eassumption]|]); done.
Qed.


Lemma flag_run pf evs : ∀ st st' sid td p pr,
  reachable pf st → run evs st = Some st' →
  heap st !! sid = Some td → wasInterrupted td = true →
  procs st !! p = Some pr → termData pr = sid →
  Forall (λ e, runs_on sid e = false) evs →
  reachable pf st'
  ∧ ∃ td' pr', heap st' !! sid = Some td' ∧ wasInterrupted td' = true
      ∧ procs st' !! p = Some pr' ∧ termData pr' = sid.
Proof.
  induction evs as [|e evs IH]; intros st st' sid td p pr Hr Hrun Hh Hw Hp Htd Hall;
    cbn [run] in Hrun.
  - injection Hrun as <-. split; [done|]. by exists td, pr.
  - destruct (enabled e st) eqn:He; [|done].
    inversion Hall as [|? ? Hno Hrest]. subst.
    destruct (flag_step e st _ td p pr (reachable_wf _ _ Hr) Hh Hw Hp eq_refl Hno)
      as (td1 & pr1 & Hh1 & Hw1 & Hp1 & Ht1).
    apply (IH (next e st) st' _ td1 p pr1); try done.
    by apply reachable_step.
Qed.

(** X11.  After [kill-execution] on a session with an active process, the
    completion record stored when that process closes has
    [wasInterrupted] true, provided [execute-code] is not called on the
    session in between; closing the window in between does not change
    this. *)
Theorem interrupt_is_recorded pf st sid l td p evs st' exitCode :
  reachable pf st →
  get (Some sid) st = Some (l, td) →
  activeProcess td = Some p →
  run evs (next (KillExecution (Some sid)) st) = Some st' →
  Forall (λ e, runs_on sid e = false) evs →
  ∃ td' r,
    heap (next (ProcClose p exitCode) st') !! l = Some td'
    ∧ lastExecutionResult td' = Some r
    ∧ res_wasInterrupted r = true
    ∧ res_exitCode r = exitCode.
Proof.
  intros Hr Hget Ha Hrun Hall.
  pose proof (reachable_wf _ _ Hr) as Hwf.
  pose proof Hget as Hget'.
  apply get_Some in Hget' as (? & [= <-] & Ht & Hh).
  destruct (wf_terminals st Hwf _ _ Ht) as (-> & _).
  destruct (reachable_owner pf st Hr _ _ _ Hh Ha) as (pr & Hp & Htd).
  assert (reachable pf (next (KillExecution (Some sid)) st)) as Hr1
    by (by apply reachable_step).
  rewrite (kill_execution_active st (Some sid) sid td p pr Hget Ha Hp) in Hrun, Hr1.
  destruct (flag_run pf evs _ st' sid (with_wasInterrupted true td) p
              (if stdin_writable pr then write (String Str.ETX "") pr
               else kill SIGINT pr) Hr1 Hrun)
    as (Hr' & td1 & pr1 & Hh1 & Hw1 & Hp1 & Ht1); try done.
  { unfold add_timer, store_proc, store. cbn. apply lookup_insert_eq. }
  { unfold add_timer, store_proc, store. cbn. apply lookup_insert_eq. }
  { unfold write, kill. destruct (stdin_writable pr), (stdin pr); done. }
  eexists _, _. unfold next. cbn [step fst]. unfold mark_closed. rewrite Hp1.
  unfold on_close. cbn [procs store_proc set_procs heap].
  rewrite lookup_insert_eq. cbn [termData with_closed with_handle].
  rewrite Ht1, Hh1. cbn [heap store set_heap store_proc set_procs].
  rewrite lookup_insert_eq. cbn. by rewrite Hw1.
Qed.

Lemma interrupt_is_recorded_witness :
  ∃ td' r,
    heap (next (ProcClose 0 None)
            (exec [WindowClosed 1]
               (next (KillExecution (Some 1))
                  (exec [ ShowExecutionModal "bash" "sleep 5";
                          ExecuteCode "sleep 5" "bash" (Some 1) SpawnOk ]
                        (init Linux))))) !! 1 = Some td'
    ∧ lastExecutionResult td' = Some r
    ∧ res_wasInterrupted r = true
    ∧ res_exitCode r = None.
Proof.
  apply (interrupt_is_recorded Linux
           (exec [ ShowExecutionModal "bash" "sleep 5";
                   ExecuteCode "sleep 5" "bash" (Some 1) SpawnOk ] (init Linux))
           1 1
           (mkTermData
              (mkWindow "Terminal Output - bash" "sleep 5" false false [])
              (Some 0) (echo "sleep 5") false None false)
           0 [WindowClosed 1] _ None
           (run_reachable Linux
              [ ShowExecutionModal "bash" "sleep 5";
                ExecuteCode "sleep 5" "bash" (Some 1) SpawnOk ]
              (init Linux) _ (reachable_init Linux) eq_refl)
           eq_refl eq_refl eq_refl).
  repeat constructor.
Defined.

(** ** Showing the window, then running *)

Lemma get_intro sid st l td :
  terminals st !! sid = Some l → heap st !! l = Some td →
  get (Some sid) st = Some (l, td).
Proof. intros Ht Hh. unfold get. cbn. rewrite Ht. cbn. by rewrite Hh. Qed.

Lemma session_persists e st sid td :
  terminals st !! sid = Some sid → heap st !! sid = Some td →
  (sid < nextTerminalId st)%nat → e ≠ WindowClosed sid →
  terminals (next e st) !! sid = Some sid
  ∧ (sid < nextTerminalId (next e st))%nat
  ∧ ∃ td', heap (next e st) !! sid = Some td'
      ∧ page_code (window td') = page_code (window td).
Proof.
  intros Ht Hh Hlt Hne.
  step_cases e; (split; [|split; [lia|]]);
    rewrite ?lookup_insert_ne by lia;
    rewrite ?lookup_delete_ne by congruence; try done;
    lookup_cases; repeat case_decide; simplify_eq; eauto.
Qed.

Lemma session_persists_exec evs : ∀ st sid td,
  terminals st !! sid = Some sid → heap st !! sid = Some td →
  (sid < nextTerminalId st)%nat →
  Forall (λ e, e ≠ WindowClosed sid) evs →
  terminals (exec evs st) !! sid = Some sid
  ∧ ∃ td', heap (exec evs st) !! sid = Some td'
      ∧ page_code (window td') = page_code (window td).
Proof.
  induction evs as [|e evs IH]; intros st sid td Ht Hh Hlt Hall; cbn [exec].
  - eauto.
  - inversion Hall as [|? ? He Hrest]. subst.
    destruct (session_persists e st sid td Ht Hh Hlt He)
      as (Ht1 & Hlt1 & td1 & Hh1 & Hc1).
    destruct (IH _ _ td1 Ht1 Hh1 Hlt1 Hrest) as (Ht' & td' & Hh' & Hc').
    split; [done|]. exists td'. split; [done | congruence].
Qed.

(** X12.  The two calls of [__executeCodeAndShowModal] fit together: the
    session created by [show-execution-modal] is still registered, with
    the same code, when [execute-code] is called with the id returned,
    whatever happened in between except the closing of that window; for a
    language with a Run button the call then starts a process. *)
Theorem modal_run_finds_its_session st language code evs :
  Forall (λ e, e ≠ WindowClosed (nextTerminalId st)) evs →
  ∃ td,
    get (Some (nextTerminalId st))
        (exec evs (show_execution_modal language code st).1)
    = Some (nextTerminalId st, td)
    ∧ page_code (window td) = code
    ∧ (offers_run language = true →
       (execute_code code language (Some (nextTerminalId st)) SpawnOk
          (exec evs (show_execution_modal language code st).1)).2
       = ReplyPending
           (nextProc (exec evs (show_execution_modal language code st).1))).
Proof.
  intros Hall.
  destruct (session_persists_exec evs (show_execution_modal language code st).1
              (nextTerminalId st)
              (mkTermData (mkWindow ("Terminal Output - " ++ language) code
                                    false false [])
                          None (echo code) false None false))
    as (Ht & td & Hh & Hc); try done.
  - cbn. apply lookup_insert_eq.
  - cbn. apply lookup_insert_eq.
  - cbn. lia.
  - assert (get (Some (nextTerminalId st))
                (exec evs (show_execution_modal language code st).1)
            = Some (nextTerminalId st, td)) as Hget.
    { by apply get_intro. }
    exists td. split; [done|]. split; [done|].
    intros Ho. by apply (offered_spawns language _ code _ (nextTerminalId st) td).
Qed.

Lemma modal_run_finds_its_session_witness :
  (execute_code "ls" "sh" (Some 1) SpawnOk
     (exec [ ShowExecutionModal "sh" "pwd"; WindowClosed 2; Tick 5 ]
        (show_execution_modal "sh" "ls" (init Linux)).1)).2
  = ReplyPending 0.
Proof.
  destruct (modal_run_finds_its_session (init Linux) "sh" "ls"
              [ ShowExecutionModal "sh" "pwd"; WindowClosed 2; Tick 5 ])
    as (td & _ & _ & H).
  - repeat constructor; discriminate.
  - exact (H eq_refl).
Defined.

(** ** Signals and writes *)

(** X13.  Only [kill-execution], its timer and the closing of a window
    signal a process, and only [kill-execution] and [terminal-input] write
    to an input stream: every other event leaves the signals sent to each
    existing process, its [killed] flag and what was written to its input
    unchanged.  In particular a new run on a session does not stop the
    process of the previous one. *)
Theorem signals_and_writes_have_few_sources pf st e p pr :
  reachable pf st →
  procs st !! p = Some pr →
  ∃ pr', procs (next e st) !! p = Some pr'
    ∧ (may_signal e = false →
       kill_calls pr' = kill_calls pr ∧ killed pr' = killed pr)
    ∧ (may_write e = false →
       (written <$> stdin pr') = (written <$> stdin pr)).
Proof.
  intros Hr Hp. pose proof (wf_proc_fresh st (reachable_wf _ _ Hr)) as Hf.
  assert (p ≠ nextProc st) as Hne.
  { intros ->. rewrite Hf in Hp by lia. done. }
  clear Hr Hf.
  step_cases e; lookup_cases; repeat case_decide; simplify_eq;
    (eexists; split; [first [reflexivity | eassumption]|]); simpl_fields;
    cbn [may_signal may_write]; split; intros; try done;
    match goal with H : stdin _ = _ |- _ => by rewrite H | _ => idtac end.
Qed.

Lemma signals_and_writes_have_few_sources_witness :
  ∃ pr',
    procs (next (ExecuteCode "echo 2" "sh" (Some 1) SpawnOk)
             (exec [ ShowExecutionModal "sh" "sleep 9";
                     ExecuteCode "sleep 9" "sh" (Some 1) SpawnOk ]
                   (init Linux))) !! 0 = Some pr'
    ∧ (false = false →
       kill_calls pr' = [] ∧ killed pr' = false)
    ∧ (false = false → (written <$> stdin pr') = Some []).
Proof.
  exact (signals_and_writes_have_few_sources Linux
           (exec [ ShowExecutionModal "sh" "sleep 9";
                   ExecuteCode "sleep 9" "sh" (Some 1) SpawnOk ] (init Linux))
           (ExecuteCode "echo 2" "sh" (Some 1) SpawnOk) 0
           (spawn 1 "script" ["-qfec"; "sh -c 'sleep 9'"; "/dev/null"] false)
           (run_reachable Linux
              [ ShowExecutionModal "sh" "sleep 9";
                ExecuteCode "sleep 9" "sh" (Some 1) SpawnOk ]
              (init Linux) _ (reachable_init Linux) eq_refl)
           eq_refl).
Defined.

(** ** The stream of messages to a window *)

Lemma sent_step e st l td :
  wf st → heap st !! l = Some td →
  ∃ td', heap (next e st) !! l = Some td'
    ∧ sent (window td') = (sent (window td) ++ forwarded e l st)%list
    ∧ page_code (window td') = page_code (window td)
    ∧ (destroyed (window td) = true → destroyed (window td') = true).
Proof.
  intros Hwf Hh. pose proof (wf_heap_fresh st Hwf) as Hf.
  assert (l ≠ nextTerminalId st) as Hne.
  { intros ->. rewrite Hf in Hh by lia. done. }
  clear Hwf Hf. unfold forwarded. rewrite Hh.
  step_cases e; lookup_cases; repeat case_decide; simplify_eq;
    (eexists; split; [first [reflexivity | eassumption]|]); simpl_fields;
    repeat case_match; simplify_eq; rewrite ?app_nil_r; try done;
    congruence.
Qed.

Lemma sent_run pf evs : ∀ st st' l td,
  reachable pf st → run evs st = Some st' → heap st !! l = Some td →
  reachable pf st'
  ∧ ∃ td' new, heap st' !! l = Some td'
      ∧ sent (window td') = (sent (window td) ++ new)%list
      ∧ page_code (window td') = page_code (window td).
Proof.
  induction evs as [|e evs IH]; intros st st' l td Hr Hrun Hh; cbn [run] in Hrun.
  - injection Hrun as <-. split; [done|]. exists td, []. by rewrite app_nil_r.
  - destruct (enabled e st) eqn:He; [|done].
    destruct (sent_step e st l td (reachable_wf _ _ Hr) Hh)
      as (td1 & Hh1 & Hs1 & Hc1 & _).
    destruct (IH _ _ l td1 (reachable_step _ _ _ Hr He) Hrun Hh1)
      as (Hr' & td' & new & Hh' & Hs' & Hc').
    split; [done|]. exists td', (forwarded e l st ++ new)%list.
    split; [done|]. rewrite Hs', Hs1, Hc', Hc1. by rewrite <- app_assoc.
Qed.

(** X14.  The messages sent to the window of a session are only ever
    appended, at most one per event and in the order of the events: a
    data event of a process of the session appends its chunk with its
    stream tag, a [terminal-complete] for the session appends the
    completion, nothing else is sent; a destroyed window stays destroyed
    and is sent nothing. *)
Theorem window_messages_are_appended_in_order pf st e l td :
  reachable pf st →
  heap st !! l = Some td →
  ∃ td', heap (next e st) !! l = Some td'
    ∧ sent (window td') = (sent (window td) ++ forwarded e l st)%list
    ∧ (List.length (forwarded e l st) ≤ 1)%nat
    ∧ (destroyed (window td) = true →
       sent (window td') = sent (window td) ∧ destroyed (window td') = true).
Proof.
  intros Hr Hh.
  destruct (sent_step e st l td (reachable_wf _ _ Hr) Hh)
    as (td' & Hh' & Hs & _ & Hd).
  exists td'. split; [done|]. split; [done|]. split.
  - unfold forwarded. repeat case_match; cbn; lia.
  - intros Hdes. split; [|by apply Hd].
    rewrite Hs. unfold forwarded. rewrite Hh, Hdes. apply app_nil_r.
Qed.

Lemma window_messages_are_appended_in_order_witness :
  (sent ∘ window
     <$> heap (next (Data Stderr 0 "oops")
                 (exec [ ShowExecutionModal "bash" "ls";
                         ExecuteCode "ls" "bash" (Some 1) SpawnOk;
                         Data Stdout 0 "a" ] (init Linux))) !! 1)
  = Some [TerminalOutput Stdout "a"; TerminalOutput Stderr "oops"].
Proof.
  destruct (window_messages_are_appended_in_order Linux
              (exec [ ShowExecutionModal "bash" "ls";
                      ExecuteCode "ls" "bash" (Some 1) SpawnOk;
                      Data Stdout 0 "a" ] (init Linux))
              (Data Stderr 0 "oops") 1
              (mkTermData
                 (mkWindow "Terminal Output - bash" "ls" false false
                           [TerminalOutput Stdout "a"])
                 (Some 0) (echo "ls" ++ "a") false None false)
              (run_reachable Linux
                 [ ShowExecutionModal "bash" "ls";
                   ExecuteCode "ls" "bash" (Some 1) SpawnOk;
                   Data Stdout 0 "a" ]
                 (init Linux) _ (reachable_init Linux) eq_refl)
              eq_refl) as (td' & Hh & Hs & _).
  rewrite Hh. cbn [fmap option_fmap option_map compose]. f_equal. exact Hs.
Defined.

(** ** A window that attaches late *)

(** X15.  A window may attach at any moment.  If its catch-up query is
    answered in state [st] and it then receives the messages sent to it
    during any later run, its [fullOutput] equals the buffer of the
    session at the end of that run, whatever it had received before the
    answer. *)
Theorem late_attach_replays_the_buffer blank pf st evs st' sid l td l' td' pre pg :
  reachable pf st →
  run evs st = Some st' →
  get (Some sid) st = Some (l, td) →
  get (Some sid) st' = Some (l', td') →
  ∃ new,
    sent (window td') = (sent (window td) ++ new)%list
    ∧ fullOutput
        (deliver_all blank
           (pre ++ BufferReply (get_terminal_buffer (Some sid) st)
                :: map Pushed new)%list pg)
      = buffer td'.
Proof.
  intros Hr Hrun Hget Hget'.
  pose proof (reachable_wf _ _ Hr) as Hwf.
  unfold get_terminal_buffer. rewrite Hget.
  apply get_Some in Hget as (? & [= <-] & Ht & Hh).
  apply get_Some in Hget' as (? & [= <-] & Ht' & Hh').
  destruct (wf_terminals st Hwf _ _ Ht) as (-> & td0 & Hh0 & Hd).
  assert (td0 = td) as -> by congruence.
  destruct (sent_run pf evs st st' _ td Hr Hrun Hh)
    as (Hr' & td1 & new & Hh1 & Hs & Hc).
  pose proof (reachable_wf _ _ Hr') as Hwf'.
  destruct (wf_terminals st' Hwf' _ _ Ht') as (-> & td2 & Hh2 & Hd').
  assert (td2 = td') as -> by congruence.
  assert (td1 = td') as -> by congruence.
  exists new. split; [done|].
  rewrite deliver_all_app. cbn [deliver_all].
  rewrite fullOutput_pushed. cbn [deliver]. unfold on_buffer.
  cbn [bi_buffer isComplete result].
  assert (buffer td ≠ "") as Hne.
  { rewrite (wf_buffer st Hwf _ _ Hh Hd). done. }
  apply String.eqb_neq in Hne. rewrite Hne.
  assert (∀ pg0 (b : bool) r, fullOutput
            (if b then handleCompletion r pg0 else pg0) = fullOutput pg0) as Hfo.
  { intros pg0 [] r; [|done]. unfold handleCompletion.
    destruct (data_completed pg0); [done|]. by destruct r. }
  rewrite Hfo. cbn [fullOutput].
  rewrite (wf_buffer st Hwf _ _ Hh Hd), (wf_buffer st' Hwf' _ _ Hh' Hd').
  rewrite Hs, Hc, outputs_app, append_assoc. done.
Qed.

Lemma late_attach_replays_the_buffer_witness :
  ∃ new,
    [TerminalOutput Stdout "a"; TerminalOutput Stderr "b"]
    = ([TerminalOutput Stdout "a"] ++ new)%list
    ∧ fullOutput
        (deliver_all (λ _, false)
           ([Pushed (TerminalOutput Stdout "a")]
            ++ BufferReply
                 (get_terminal_buffer (Some 1)
                    (exec [ ShowExecutionModal "sh" "x";
                            ExecuteCode "x" "sh" (Some 1) SpawnOk;
                            Data Stdout 0 "a" ] (init Linux)))
            :: map Pushed new)%list new_page)
      = echo "x" ++ "ab".
Proof.
  exact (late_attach_replays_the_buffer (λ _, false) Linux
           (exec [ ShowExecutionModal "sh" "x";
                   ExecuteCode "x" "sh" (Some 1) SpawnOk;
                   Data Stdout 0 "a" ] (init Linux))
           [ Data Stderr 0 "b"; ProcClose 0 (Some 0%Z) ] _ 1 1
           (mkTermData
              (mkWindow "Terminal Output - sh" "x" false false
                        [TerminalOutput Stdout "a"])
              (Some 0) (echo "x" ++ "a") false None false)
           1
           (mkTermData
              (mkWindow "Terminal Output - sh" "x" false false
                        [TerminalOutput Stdout "a"; TerminalOutput Stderr "b"])
              None (echo "x" ++ "ab") true
              (Some (mkResult "a" "b" (Some 0%Z) false)) false)
           [Pushed (TerminalOutput Stdout "a")] new_page
           (run_reachable Linux
              [ ShowExecutionModal "sh" "x";
                ExecuteCode "x" "sh" (Some 1) SpawnOk;
                Data Stdout 0 "a" ]
              (init Linux) _ (reachable_init Linux) eq_refl)
           eq_refl eq_refl eq_refl).
Defined.

(** ** Language tags *)

Lemma lower_char_idem a : Str.lower_char (Str.lower_char a) = Str.lower_char a.
Proof. by destruct a as [[] [] [] [] [] [] [] []]. Qed.

Lemma toLowerCase_idem s : Str.toLowerCase (Str.toLowerCase s) = Str.toLowerCase s.
Proof.
  induction s as [|a s IH]; [done|]. cbn [Str.toLowerCase].
  by rewrite lower_char_idem, IH.
Qed.

(** X16.  Language tags are case-insensitive: two tags with the same
    lower-case form leave the same state, and for a tag the registry
    knows they give the same answer; lower-casing a tag twice is the same
    as lower-casing it once. *)
Theorem language_tags_are_case_insensitive st code language language' sessionId o :
  Str.toLowerCase language = Str.toLowerCase language' →
  (execute_code code language sessionId o st).1
  = (execute_code code language' sessionId o st).1
  ∧ (is_Some (lookup_language (Str.toLowerCase language)) →
     execute_code code language sessionId o st
     = execute_code code language' sessionId o st)
  ∧ execute_code code (Str.toLowerCase language) sessionId o st
    = execute_code code (Str.toLowerCase (Str.toLowerCase language)) sessionId o st.
Proof.
  intros H. split; [|split].
  - unfold execute_code. rewrite <- H. by repeat case_match.
  - intros [c Hc]. unfold execute_code. rewrite <- H, Hc. done.
  - by rewrite toLowerCase_idem.
Qed.

Lemma language_tags_are_case_insensitive_witness :
  execute_code "1" "PYTHON" (Some 1) SpawnOk
    (next (ShowExecutionModal "py" "1") (init Linux))
  = execute_code "1" "Python" (Some 1) SpawnOk
      (next (ShowExecutionModal "py" "1") (init Linux)).
Proof.
  exact (proj1 (proj2 (language_tags_are_case_insensitive
           (next (ShowExecutionModal "py" "1") (init Linux))
           "1" "PYTHON" "Python" (Some 1) SpawnOk eq_refl))
           (ex_intro _ (entry "python3" "-c") eq_refl)).
Defined.

(** ** Off Linux *)

Lemma own_lookup_forall (P : LangConfig → bool) tbl k c :
  forallb (λ kv, P kv.2) tbl = true → own_lookup tbl k = Some c → P c = true.
Proof.
  induction tbl as [|[k' v] tbl IH]; simpl; [done|].
  intros H. apply andb_true_iff in H as [Hv Ht].
  destruct (String.eqb k k'); [by intros [= <-] | by apply IH].
Qed.

(** X17.  Off Linux the code is not wrapped nor quoted: for a registered
    language the child is started as the interpreter of the entry (after
    the platform override) with two arguments, the flag of the entry and
    the code unchanged, and through a shell exactly on Windows. *)
Theorem off_linux_code_is_passed_verbatim st code language sessionId l td c0 :
  platform st ≠ Linux →
  get sessionId st = Some (l, td) →
  own_lookup LANGUAGE_COMMANDS (Str.toLowerCase language) = Some c0 →
  ∃ c flag,
    cmd (platform_override (platform st) (Str.toLowerCase language) c0) = Some c
    ∧ args c0 = Some [flag]
    ∧ procs (execute_code code language sessionId SpawnOk st).1 !! nextProc st
      = Some (spawn l c [flag; code] (bool_decide (platform st = Win32))).
Proof.
  intros Hpf Hget Hown.
  destruct (supported_config (platform st) _ _ Hown) as (c & a & Hcfg & _).
  pose proof (own_lookup_forall single_flag LANGUAGE_COMMANDS _ _ eq_refl Hown)
    as Hs.
  unfold single_flag in Hs.
  destruct (args c0) as [[|flag [|? ?]]|] eqn:Ha; try done.
  assert (a = [flag]) as ->.
  { assert (args (platform_override (platform st) (Str.toLowerCase language) c0)
            = args c0) as Hsame.
    { unfold platform_override. by repeat case_match. }
    rewrite Hcfg, Ha in Hsame. by injection Hsame. }
  exists c, flag. rewrite Hcfg. split; [done|]. split; [done|].
  unfold execute_code.
  rewrite Hget, (own_lookup_supported _ _ Hown), Hcfg. cbn [args cmd].
  unfold spawn_invocation. destruct (platform st); [done| |];
    cbn; by rewrite lookup_insert_eq.
Qed.

Lemma off_linux_code_is_passed_verbatim_witness :
  procs (execute_code "print('hi')" "py" (Some 1) SpawnOk
           (next (ShowExecutionModal "py" "print('hi')") (init Win32))).1 !! 0
  = Some (spawn 1 "python" ["-c"; "print('hi')"] true).
Proof.
  destruct (off_linux_code_is_passed_verbatim
              (next (ShowExecutionModal "py" "print('hi')") (init Win32))
              "print('hi')" "py" (Some 1) 1
              (mkTermData (mkWindow "Terminal Output - py" "print('hi')"
                                    false false [])
                          None (echo "print('hi')") false None false)
              (entry "python3" "-c"))
    as (c & flag & Hc & Hf & Hp); [done | done | done |].
  injection Hc as <-. injection Hf as <-. exact Hp.
Defined.
(** ** Run buttons *)

Lemma block_ok_new : block_ok new_block.
Proof. split; cbn; try done; try lia. Qed.

Lemma length_le_1_lookup {A} (l : list A) i x :
  (List.length l ≤ 1)%nat → l !! i = Some x → l = [x] ∧ i = 0%nat.
Proof.
  destruct l as [|y [|z l]]; cbn; intros Hl Hi; try done; try lia.
  destruct i; [by injection Hi as -> | done].
Qed.

Lemma no_buttons_yet b : block_ok b → processed b = false → buttons b = [].
Proof.
  intros Hok E. destruct (buttons b) eqn:Eb; [done|].
  destruct (ok_processed b Hok) as [_ Hp]. rewrite Eb in Hp.
  rewrite Hp in E; done.
Qed.

#[local] Arguments offers_run : simpl never.

Lemma block_ok_step blank ev b : block_ok b → block_ok (block_step blank ev b).
Proof.
  intros Hok.
  destruct ev as [language content|i content|i content]; cbn [block_step].
  - unfold scan. destruct (processed b) eqn:E1; [exact Hok|].
    destruct (offers_run language) eqn:E2; [|exact Hok]. cbn [negb].
    destruct (blank content); [exact Hok|].
    destruct (pending b) eqn:E3; [exact Hok|].
    pose proof (ok_idle b Hok E1 E3) as Hms.
    pose proof (no_buttons_yet b Hok E1) as Hbs.
    split; cbn; rewrite ?Hms, ?Hbs; cbn; try done; try lia.
    by repeat constructor.
  - unfold interval_fires.
    destruct (monitors b !! i) as [m|] eqn:Em; [|exact Hok].
    destruct (length_le_1_lookup _ _ _ (ok_monitors b Hok) Em) as [Hms ->].
    pose proof (ok_monitor_languages b Hok) as Hml.
    rewrite Hms in Hml. inversion Hml as [|? ? Hm0 _]. subst.
    destruct (interval_on m); [|exact Hok].
    destruct (String.eqb content _).
    + unfold addRunButton, clear_interval. cbn [processed].
      destruct (processed b) eqn:E1.
      * destruct Hok as [Hb _ Hp _ _ _ Hbl].
        split; cbn; rewrite ?Hms, ?E1; cbn; try done; try lia;
          try (by repeat constructor). by rewrite E1 in Hp.
      * pose proof (no_buttons_yet b Hok E1) as Hbs.
        split; cbn; rewrite ?Hms, ?Hbs; cbn; try done; try lia;
          by repeat constructor.
    + destruct Hok as [Hb Hm Hp Hi Hpe _ Hbl].
      split; cbn; rewrite ?Hms; cbn; try done; try lia;
        try (by repeat constructor).
      intros E1 E3. specialize (Hi E1 E3). by rewrite Hms in Hi.
  - unfold timeout_fires.
    destruct (monitors b !! i) as [m|] eqn:Em; [|exact Hok].
    destruct (length_le_1_lookup _ _ _ (ok_monitors b Hok) Em) as [Hms ->].
    pose proof (ok_monitor_languages b Hok) as Hml.
    rewrite Hms in Hml. inversion Hml as [|? ? Hm0 _]. subst.
    destruct (timeout_on m); [|exact Hok].
    destruct (pending b) eqn:E3.
    + pose proof (ok_pending b Hok E3) as E1.
      pose proof (no_buttons_yet b Hok E1) as Hbs.
      unfold addRunButton. cbn [processed]. rewrite E1.
      split; cbn; rewrite ?Hms, ?Hbs; cbn; try done; try lia;
        by repeat constructor.
    + destruct Hok as [Hb Hm Hp Hi Hpe _ Hbl].
      split; cbn; rewrite ?Hms, ?E3; cbn; try done; try lia;
        try (by repeat constructor).
      intros E1 _. specialize (Hi E1 E3). by rewrite Hms in Hi.
Qed.

Lemma block_ok_run blank evs : ∀ b, block_ok b → block_ok (block_run blank evs b).
Proof.
  induction evs as [|ev evs IH]; intros b Hb; [done|].
  cbn [block_run]. by apply IH, block_ok_step.
Qed.

(** X18.  A code block gets at most one Run button and at most one
    monitor, whatever the order and number of visits, interval ticks and
    timeouts; the block is marked processed exactly when it has its
    button; and the language of every button is one that [execute-code]
    supports. *)
Theorem at_most_one_run_button blank evs :
  (List.length (buttons (block_run blank evs new_block)) ≤ 1)%nat
  ∧ (List.length (monitors (block_run blank evs new_block)) ≤ 1)%nat
  ∧ (processed (block_run blank evs new_block) = true
     ↔ buttons (block_run blank evs new_block) ≠ [])
  ∧ ∀ language code,
      In (language, code) (buttons (block_run blank evs new_block)) →
      offers_run language = true
      ∧ is_Some (own_lookup LANGUAGE_COMMANDS (Str.toLowerCase language)).
Proof.
  destruct (block_ok_run blank evs new_block block_ok_new)
    as [Hb Hm Hp _ _ _ Hbl].
  repeat split; try done; try apply Hp.
  - rewrite Forall_forall in Hbl. apply (Hbl (language, code)).
    by apply list_elem_of_In.
  - rewrite Forall_forall in Hbl.
    assert (offers_run language = true) as Ho.
    { apply (Hbl (language, code)). by apply list_elem_of_In. }
    unfold offers_run in Ho. by apply own_lookup_keys.
Qed.

(** X19.  The first Run button of a block is created only by a tick of
    its monitor that reads the same text as the previous reading, or by
    the timeout of the monitor while the block is still pending; the
    button carries that text and the language found when the monitor was
    started. *)
Theorem run_button_carries_stable_content blank ev b language code :
  buttons b = [] →
  buttons (block_step blank ev b) = [(language, code)] →
  (∃ i m, ev = IntervalFires i code ∧ monitors b !! i = Some m
          ∧ m_language m = language
          ∧ from_option id "" (last_content b) = code)
  ∨ (∃ i m, ev = TimeoutFires i code ∧ monitors b !! i = Some m
            ∧ m_language m = language ∧ pending b = true).
Proof.
  intros Hb.
  destruct ev as [l c|i c|i c]; cbn [block_step].
  - unfold scan. repeat case_match; cbn [buttons]; rewrite Hb; done.
  - unfold interval_fires, addRunButton.
    destruct (monitors b !! i) as [m|] eqn:Em; [|by rewrite Hb].
    destruct (interval_on m); [|by rewrite Hb].
    destruct (String.eqb c _) eqn:Ec; [|cbn; by rewrite Hb].
    cbn [processed buttons]. destruct (processed b); cbn [buttons];
      rewrite Hb; [done|]. cbn. intros [= <- <-].
    apply String.eqb_eq in Ec. left. by exists i, m.
  - unfold timeout_fires, addRunButton.
    destruct (monitors b !! i) as [m|] eqn:Em; [|by rewrite Hb].
    destruct (timeout_on m); [|by rewrite Hb].
    destruct (pending b) eqn:Ep; [|cbn; by rewrite Hb].
    cbn [processed buttons]. destruct (processed b); cbn [buttons];
      rewrite Hb; [done|]. cbn. intros [= <- <-].
    right. by exists i, m.
Qed.

Lemma run_button_carries_stable_content_witness :
  ∃ i m,
    IntervalFires 0 "ls -l" = IntervalFires i "ls -l"
    ∧ monitors (block_run (λ _, false)
                  [Scan "bash" "ls"; IntervalFires 0 "ls -l"] new_block) !! i
      = Some m
    ∧ m_language m = "bash"
    ∧ from_option id ""
        (last_content (block_run (λ _, false)
                         [Scan "bash" "ls"; IntervalFires 0 "ls -l"] new_block))
      = "ls -l".
Proof.
  destruct (run_button_carries_stable_content (λ _, false)
              (IntervalFires 0 "ls -l")
              (block_run (λ _, false)
                 [Scan "bash" "ls"; IntervalFires 0 "ls -l"] new_block)
              "bash" "ls -l" eq_refl eq_refl) as [H|(i & m & H & _)].
  - exact H.
  - discriminate H.
Defined.

Lemma block_run_example :
  buttons (block_run (λ _, false)
             [ Scan "bash" "ls"; IntervalFires 0 "ls -l"; Scan "bash" "ls -l";
               IntervalFires 0 "ls -l"; TimeoutFires 0 "ls -la";
               Scan "sh" "ls -la" ] new_block)
  = [("bash", "ls -l")].
Proof. reflexivity. Qed.
